(** * Loan calculator (app.py): amortization engine

    The program computes with Python floats.  The engine is embedded here
    over exact rationals [Q] (every float operation of the schedule loop,
    [+ - * / min max <= ==], is taken at infinite precision), so that every
    definition can be evaluated on concrete inputs.  The one operation that
    leaves the rationals, [x ** y] with a fractional exponent, is a
    parameter [fpow] of the engine; the rate conversion itself is studied
    over the reals in module [RateConversion], where [**] is [Rpower].
    Module [Doubles] has the payment formula and the schedule loop once
    more over binary64 numbers, rounding included, for the inputs on which
    rounding decides the outcome. *)

From Stdlib Require Import Reals Lra.
From Stdlib Require Import QArith Qminmax Qround Qpower ZArith List Lia Lqa.
From Stdlib Require Import Bool String Floats.
Import ListNotations.

Local Open Scope Q_scope.

(** ** Rows of the schedule *)

(** One dictionary appended to [schedule_rows] (app.py, lines 140-146). *)
Record Row : Type := mkRow {
  Month : nat;
  Payment : Q;
  Principal : Q;
  Interest : Q;
  Balance : Q
}.

(** The state the [for] loop of lines 126-148 mutates. *)
Record LoopState : Type := mkLoop {
  balance : Q;
  total_interest_paid : Q;
  total_principal_paid : Q;
  schedule_rows : list Row
}.

(** The literal [0.0001] of line 147. *)
Definition epsilon : Q := 1 # 10000.

(** [x > 0] on floats. *)
Definition Qgt_bool (x y : Q) : bool := negb (Qle_bool x y).

(** ** Periodic payment (lines 114-119)

    [None] stands for the [ZeroDivisionError] Python raises when the
    denominator [(1 + r) ** n - 1] is zero. *)
Definition monthly_payment (P r : Q) (n : nat) : option Q :=
  if Nat.eqb n 0 then Some 0
  else if Qeq_bool r 0 then Some (P / inject_Z (Z.of_nat n))
  else
    let d := (1 + r) ^ Z.of_nat n - 1 in
    if Qeq_bool d 0 then None
    else Some (P * (r * (1 + r) ^ Z.of_nat n) / d).

(** ** The schedule loop (lines 126-148) *)

Section Schedule.

Variable monthly_rate_float : Q.
Variable monthly_payment_with_extra : Q.

(** Body of one iteration, lines 131-146: the row it appends and the
    balance it leaves. *)
Definition period (m : nat) (bal : Q) : Row * Q :=
  let interest := bal * monthly_rate_float in
  let principal_paid := Qmin bal (monthly_payment_with_extra - interest) in
  let '(principal_paid, interest) :=
    if Qeq_bool monthly_rate_float 0
    then (Qmin bal monthly_payment_with_extra, 0)
    else (principal_paid, interest) in
  let bal' := bal - principal_paid in
  (mkRow m
     (if Qgt_bool bal' 0 then monthly_payment_with_extra
      else principal_paid + interest)
     principal_paid interest (Qmax 0 bal'),
   bal').

(** The loop over [range(1, total_months + 1)], with its [break]. *)
Fixpoint for_loop (months : list nat) (st : LoopState) : LoopState :=
  match months with
  | [] => st
  | m :: months' =>
      let '(row, bal') := period m (balance st) in
      let st' :=
        mkLoop bal'
          (total_interest_paid st + Interest row)
          (total_principal_paid st + Principal row)
          (schedule_rows st ++ [row]) in
      if Qle_bool bal' epsilon then st' else for_loop months' st'
  end.

(** Lines 126-130: initial state and the range iterated. *)
Definition run_schedule (effective_principal : Q) (total_months : nat)
  : LoopState :=
  for_loop (seq 1 total_months) (mkLoop effective_principal 0 0 []).

(** The rows alone, as a function of the balance: the functional reading
    of [for_loop] used in the proofs. *)
Fixpoint rows_from (months : list nat) (bal : Q) : list Row :=
  match months with
  | [] => []
  | m :: months' =>
      let '(row, bal') := period m bal in
      row :: (if Qle_bool bal' epsilon then [] else rows_from months' bal')
  end.

End Schedule.

(** [generateSchedule(effectivePrincipal, r, n, Pe)] of the specification. *)
Definition generateSchedule (P r : Q) (n : nat) (Pe : Q) : list Row :=
  schedule_rows (run_schedule r Pe P n).

(** ** The data frame (lines 150-163) *)

(** A row of [amort_df]: the schedule row and the columns added to it. *)
Record DfRow : Type := mkDf {
  entry : Row;
  Cumulative_Interest : Q;
  Cumulative_Principal : Q;
  Balance_inflation_adj : option Q
}.

(** [Series.sum()]. *)
Definition sum (l : list Q) : Q := fold_left Qplus l 0.

Fixpoint cumsum_from (acc : Q) (l : list Q) : list Q :=
  match l with
  | [] => []
  | x :: l' => (acc + x) :: cumsum_from (acc + x) l'
  end.

(** [Series.cumsum()]: the running sums, the first one being the first
    element itself. *)
Definition cumsum (l : list Q) : list Q :=
  match l with
  | [] => []
  | x :: l' => x :: cumsum_from x l'
  end.

Fixpoint zip3 (rows : list Row) (ci cp : list Q) : list DfRow :=
  match rows, ci, cp with
  | row :: rows', i :: ci', p :: cp' => mkDf row i p None :: zip3 rows' ci' cp'
  | _, _, _ => []
  end.

(** Lines 150-152.  A frame built from no rows has no columns, and
    [amort_df['Interest']] raises [KeyError]: [None]. *)
Definition amort_df (rows : list Row) : option (list DfRow) :=
  match rows with
  | [] => None
  | _ => Some (zip3 rows (cumsum (map Interest rows))
                         (cumsum (map Principal rows)))
  end.

(** numpy's rounding to the nearest integer, ties to even. *)
Definition rint (q : Q) : Z :=
  let f := Qfloor q in
  match Qcompare (q - inject_Z f) (1 # 2) with
  | Lt => f
  | Gt => (f + 1)%Z
  | Eq => if Z.even f then f else (f + 1)%Z
  end.

(** [round(x, 2)] on one cell. *)
Definition round2 (q : Q) : Q := inject_Z (rint (q * 100)) / 100.

(** [DataFrame.round(2)]: every float column is rounded, the integer
    column [Month] is left as it is; the result is a new frame. *)
Definition round_row (d : DfRow) : DfRow :=
  let e := entry d in
  mkDf (mkRow (Month e) (round2 (Payment e)) (round2 (Principal e))
              (round2 (Interest e)) (round2 (Balance e)))
       (round2 (Cumulative_Interest d))
       (round2 (Cumulative_Principal d))
       (option_map round2 (Balance_inflation_adj d)).

Definition display_df (rounding : bool) (df : list DfRow) : list DfRow :=
  if rounding then map round_row df else df.

(** ** The script (the Streamlit page, top to bottom) *)

Inductive Compounding : Type := Monthly | Quarterly | Annually.

(** The sidebar widgets the calculation reads. *)
Record Inputs : Type := mkInputs {
  principal : Q;
  deposit : Q;
  interest_rate : Q;
  compounding : Compounding;
  duration_years : nat;
  extra_payment : Q;
  show_amort : bool;
  show_graphs : bool;
  download_csv : bool;
  inflation_adj : bool;
  inflation_rate : Q;
  rounding : bool
}.

Inductive Chart : Type :=
| BalancePlot (months : list nat) (balances : list Q)
| StackPlot (months : list nat) (principals interests : list Q)
| Pie (principal_total interest_total : Q).

(** What the page shows, in order.  Headings and captions, which carry no
    computed value, are left out. *)
Inductive Event : Type :=
| ev_summary (principal deposit effective_principal interest_rate : Q)
             (duration_years : nat) (extra_payment : Q)
| ev_error (msg : string)
| ev_metric (label : string) (value : Q)
| ev_months_metric (label : string) (value : nat)
| ev_download_button (data : list DfRow)
| ev_dataframe (df : list DfRow)
| ev_pyplot (fig : Chart)
| ev_write (msg : string)
| ev_rate_metric (rate pay : Q).

Inductive Exn : Type := ZeroDivisionError | KeyError.

(** How a run ends: [st.stop()], an uncaught exception, or the last line. *)
Inductive Halt : Type := Stopped | Raised (e : Exn).

Inductive Result (A : Type) : Type :=
| Ok (a : A)
| Halted (h : Halt).
Arguments Ok {A} a.
Arguments Halted {A} h.

(** A script step: the events it shows and how it went. *)
Definition Script (A : Type) : Type := list Event * Result A.

Definition ret {A} (a : A) : Script A := ([], Ok a).

Definition bind {A B} (s : Script A) (k : A -> Script B) : Script B :=
  match s with
  | (t, Ok a) => let '(t', r) := k a in (t ++ t', r)
  | (t, Halted h) => (t, Halted h)
  end.

Definition emit (e : Event) : Script unit := ([e], Ok tt).
Definition st_stop {A} : Script A := ([], Halted Stopped).
Definition raise {A} (e : Exn) : Script A := ([], Halted (Raised e)).

Definition lift {A} (e : Exn) (o : option A) : Script A :=
  match o with
  | Some a => ret a
  | None => raise e
  end.

Definition when (b : bool) (s : Script unit) : Script unit :=
  if b then s else ret tt.

Fixpoint for_each {A} (l : list A) (body : A -> Script unit) : Script unit :=
  match l with
  | [] => ret tt
  | a :: l' => bind (body a) (fun _ => for_each l' body)
  end.

Declare Scope script_scope.
Delimit Scope script_scope with script.
Notation "x <- s ;; k" := (bind s (fun x => k))
  (at level 61, s at next level, right associativity) : script_scope.
Notation "s ;;; k" := (bind s (fun _ => k))
  (at level 61, right associativity) : script_scope.

(** Lines 100-101; the dictionary lookup with its default. *)
Definition periods_per_year (c : Compounding) : nat :=
  match c with
  | Monthly => 12
  | Quarterly => 4
  | Annually => 1
  end.

Definition deposit_message : string :=
  "Deposit covers the loan amount. Adjust deposit or principal.".

Definition pie_message : string :=
  "Cannot render pie chart in this environment.".

(** What the script has computed when it reaches the output part. *)
Record Calc : Type := mkCalc {
  c_total_months : nat;
  c_monthly_rate : Q;
  c_base_monthly_payment : Q;
  c_monthly_payment_with_extra : Q;
  c_loop : LoopState;
  c_amort_df : list DfRow;
  c_display_df : list DfRow
}.

Section App.

(** Python's [x ** y] on floats with a fractional exponent. *)
Variable fpow : Q -> Q -> Q.

(** Whether matplotlib raises while drawing a pie with these two wedge
    sizes (the [try]/[except] of lines 211-219). *)
Variable pie_raises : Q -> Q -> bool.

(** Lines 105-111.  [**] associates to the right. *)
Definition monthly_rate (c : Compounding) (annual_rate : Q) : Q :=
  match c with
  | Monthly => fpow (1 + annual_rate) (1 / 12) - 1
  | Quarterly => fpow (1 + annual_rate) (fpow (1 / 4) (1 / 3)) - 1
  | Annually => fpow (1 + annual_rate) (1 / 12) - 1
  end.

(** Lines 155-157.  Where the factor is zero numpy gives an infinity;
    the factor of a base above one is positive. *)
Definition inflation_column (i : Inputs) (df : list DfRow) : list DfRow :=
  if inflation_adj i && Qgt_bool (inflation_rate i) 0
  then map (fun d =>
              mkDf (entry d) (Cumulative_Interest d) (Cumulative_Principal d)
                (Some (Balance (entry d)
                       / fpow (1 + inflation_rate i / 100)
                              (inject_Z (Z.of_nat (Month (entry d))) / 12))))
           df
  else df.

(** Lines 98-163. *)
Definition calculations (i : Inputs) (effective_principal : Q)
  : Script Calc :=
  (let _ := periods_per_year (compounding i) in
   let total_months := (duration_years i * 12)%nat in
   let annual_rate := interest_rate i / 100 in
   let monthly_rate_float := monthly_rate (compounding i) annual_rate in
   base <- lift ZeroDivisionError
             (monthly_payment effective_principal monthly_rate_float
                total_months) ;;
   let with_extra := base + extra_payment i in
   let st := run_schedule monthly_rate_float with_extra effective_principal
               total_months in
   df <- lift KeyError (amort_df (schedule_rows st)) ;;
   let df := inflation_column i df in
   ret (mkCalc total_months monthly_rate_float base with_extra st df
          (display_df (rounding i) df)))%script.

(** Lines 165-219. *)
Definition results (i : Inputs) (c : Calc) : Script unit :=
  (let df := c_amort_df c in
   emit (ev_metric "Monthly payment (base)" (c_base_monthly_payment c)) ;;;
   emit (ev_metric "Monthly payment (with extra)"
           (c_monthly_payment_with_extra c)) ;;;
   emit (ev_metric "Total interest (so far)"
           (total_interest_paid (c_loop c))) ;;;
   emit (ev_metric "Total principal paid"
           (total_principal_paid (c_loop c))) ;;;
   emit (ev_months_metric "Months to finish (approx)" (List.length df)) ;;;
   when (download_csv i && negb (Nat.eqb (List.length df) 0))
     (emit (ev_download_button df)) ;;;
   when (show_amort i) (emit (ev_dataframe (c_display_df c))) ;;;
   when (show_graphs i)
     (let months := map (fun d => Month (entry d)) df in
      let principals := map (fun d => Principal (entry d)) df in
      let interests := map (fun d => Interest (entry d)) df in
      emit (ev_pyplot (BalancePlot months
                         (map (fun d => Balance (entry d)) df))) ;;;
      emit (ev_pyplot (StackPlot months principals interests)) ;;;
      (if pie_raises (sum principals) (sum interests)
       then emit (ev_write pie_message)
       else emit (ev_pyplot (Pie (sum principals) (sum interests))))))%script.

(** Lines 221-229. *)
Definition sensitivity (i : Inputs) (effective_principal : Q)
    (total_months : nat) : Script unit :=
  for_each [Qmax 0 (interest_rate i - 2); interest_rate i;
            interest_rate i + 2]
    (fun r =>
       (let r_month := fpow (1 + r / 100) (1 / 12) - 1 in
        pay <- lift ZeroDivisionError
                 (monthly_payment effective_principal r_month total_months) ;;
        emit (ev_rate_metric r pay))%script).

(** The whole page. *)
Definition app (i : Inputs) : Script unit :=
  (let effective_principal := Qmax 0 (principal i - deposit i) in
   emit (ev_summary (principal i) (deposit i) effective_principal
           (interest_rate i) (duration_years i) (extra_payment i)) ;;;
   (if Qle_bool effective_principal 0
    then emit (ev_error deposit_message) ;;; st_stop
    else ret tt) ;;;
   c <- calculations i effective_principal ;;
   results i c ;;;
   sensitivity i effective_principal (c_total_months c))%script.

End App.

(** ** Rate conversion over the reals

    The same lines 105-111, with [**] read as the real power function. *)
Module RateConversion.

Local Open Scope R_scope.

Definition monthly_rate (c : Compounding) (annual_rate : R) : R :=
  match c with
  | Monthly => Rpower (1 + annual_rate) (1 / 12) - 1
  | Quarterly => Rpower (1 + annual_rate) (Rpower (1 / 4) (1 / 3)) - 1
  | Annually => Rpower (1 + annual_rate) (1 / 12) - 1
  end.

(** [computePeriodicRate(annualRatePercent, compoundingFrequency)]. *)
Definition computePeriodicRate (annualRatePercent : R) (c : Compounding)
  : R :=
  monthly_rate c (annualRatePercent / 100).

End RateConversion.

(** ** Properties read off the schedule *)

Definition balances (rows : list Row) : list Q := map Balance rows.

(** Entry to entry, the next value is not larger. *)
Definition non_increasing (l : list Q) : Prop :=
  forall i x y, nth_error l i = Some x -> nth_error l (S i) = Some y -> y <= x.

Definition last_row (rows : list Row) : option Row :=
  nth_error rows (pred (List.length rows)).

(** [(1 + r) ** n], the growth factor of the payment formula. *)
Definition growth (r : Q) (n : nat) : Q := (1 + r) ^ Z.of_nat n.

(** The largest balance that [j] payments of [Pe] at rate [r] pay off:
    the balance one period earlier is the next one plus the payment,
    discounted by one period. *)
Fixpoint cover (r Pe : Q) (j : nat) : Q :=
  match j with
  | O => 0
  | S j' => (cover r Pe j' + Pe) / (1 + r)
  end.

(** The same inputs with the rounding checkbox set to [b]. *)
Definition set_rounding (b : bool) (i : Inputs) : Inputs :=
  mkInputs (principal i) (deposit i) (interest_rate i) (compounding i)
    (duration_years i) (extra_payment i) (show_amort i) (show_graphs i)
    (download_csv i) (inflation_adj i) (inflation_rate i) b.


(** Every event of the page but the schedule table ([st.dataframe]). *)
Definition not_table (e : Event) : bool :=
  match e with
  | ev_dataframe _ => false
  | _ => true
  end.

(** A run that shows no error box and is not cut by [st.stop()]. *)
Definition quiet {A} (s : Script A) : Prop :=
  (forall msg, ~ In (ev_error msg) (fst s)) /\ snd s <> Halted Stopped.

(** The cumulative columns of a frame are the prefix sums of its own
    interest and principal columns. *)
Definition cumulative_consistent (df : list DfRow) : Prop :=
  forall i d, nth_error df i = Some d ->
    Cumulative_Interest d
    == sum (map (fun e => Interest (entry e)) (firstn (S i) df))
    /\ Cumulative_Principal d
       == sum (map (fun e => Principal (entry e)) (firstn (S i) df)).

(** A rational stand-in for [**], the first-order value [1 + (x - 1) * y],
    used only to run the script on concrete inputs. *)
Definition linear_pow (x y : Q) : Q := 1 + (x - 1) * y.

(** The kind of each event, with the row count of the frames shown. *)
Definition event_kind (e : Event) : string * nat :=
  match e with
  | ev_summary _ _ _ _ _ _ => ("summary"%string, O)
  | ev_error _ => ("error"%string, O)
  | ev_metric _ _ => ("metric"%string, O)
  | ev_months_metric _ n => ("months"%string, n)
  | ev_download_button d => ("download"%string, List.length d)
  | ev_dataframe d => ("dataframe"%string, List.length d)
  | ev_pyplot _ => ("pyplot"%string, O)
  | ev_write _ => ("write"%string, O)
  | ev_rate_metric _ _ => ("rate"%string, O)
  end.

(** The balance an entry starts from: the principal for the first entry,
    the recorded balance of the entry before it for the others. *)
Definition opening_balance (P : Q) (rows : list Row) (i : nat) : Q :=
  match i with
  | O => P
  | S j => nth j (balances rows) 0
  end.

(** The quotes of the sensitivity comparison among the events. *)
Definition is_rate_quote (e : Event) : bool :=
  match e with
  | ev_rate_metric _ _ => true
  | _ => false
  end.

(** ** The engine in double arithmetic

    The same lines 114-148 over IEEE binary64 numbers, the floats of
    Python, rounding included.  [+ - * /] and the comparisons are the
    primitive operations; [min] and [max] keep their first argument unless
    the second is smaller (larger), as Python's do.  [x ** n] with an
    integer [n] is taken as the repeated product, which is what the C
    library's [pow] returns whenever the products are exact (the base 1
    and the powers of two used below); an infinite result raises
    [OverflowError] and a zero denominator [ZeroDivisionError]. *)
Module Doubles.

Local Open Scope float_scope.

Definition py_min (a b : float) : float := if b <? a then b else a.
Definition py_max (a b : float) : float := if a <? b then b else a.

Fixpoint pow (x : float) (n : nat) : float :=
  match n with
  | O => 1
  | S n' => x * pow x n'
  end.

(** An integer operand converted to a float. *)
Definition of_nat (n : nat) : float :=
  PrimFloat.of_uint63 (Uint63.of_Z (Z.of_nat n)).

Inductive Exn : Type := ZeroDivisionError | OverflowError.

(** Lines 114-119. *)
Definition monthly_payment (P r : float) (n : nat) : Exn + float :=
  if Nat.eqb n 0 then inr 0
  else if r =? 0 then inr (P / of_nat n)
  else
    let x := pow (1 + r) n in
    if is_infinity x && negb (is_infinity (1 + r)) then inl OverflowError
    else
      let d := x - 1 in
      if d =? 0 then inl ZeroDivisionError
      else inr (P * (r * x) / d).

Record Row : Type := mkRow {
  Month : nat;
  Payment : float;
  Principal : float;
  Interest : float;
  Balance : float
}.

(** The literal [0.0001] of line 147: the double nearest to it, as Python
    reads it. *)
Definition epsilon : float := 0x1.a36e2eb1c432dp-14.

(** Lines 131-146. *)
Definition period (r Pe : float) (m : nat) (bal : float) : Row * float :=
  let interest := bal * r in
  let principal_paid := py_min bal (Pe - interest) in
  let '(principal_paid, interest) :=
    if r =? 0 then (py_min bal Pe, 0) else (principal_paid, interest) in
  let bal' := bal - principal_paid in
  (mkRow m (if 0 <? bal' then Pe else principal_paid + interest)
     principal_paid interest (py_max 0 bal'),
   bal').

(** Lines 126-148, the rows only. *)
Fixpoint rows_from (r Pe : float) (months : list nat) (bal : float)
  : list Row :=
  match months with
  | [] => []
  | m :: months' =>
      let '(row, bal') := period r Pe m bal in
      row :: (if bal' <=? epsilon then [] else rows_from r Pe months' bal')
  end.

Definition generateSchedule (P r : float) (n : nat) (Pe : float)
  : list Row :=
  rows_from r Pe (seq 1 n) P.

End Doubles.

(** The balance [k] periods on from [bal] when the loop is not stopped:
    the balance each iteration leaves, fed to the next one. *)
Fixpoint balance_after (r Pe bal : Q) (k : nat) : Q :=
  match k with
  | O => bal
  | S k' => balance_after r Pe (snd (period r Pe 1 bal)) k'
  end.

(** * Theorems *)

(** ** Evaluation on concrete inputs *)

Example zero_rate_rows :
  map Balance (generateSchedule 1200 0 12 100)
  = [1100; 1000; 900; 800; 700; 600; 500; 400; 300; 200; 100; 0].
Proof. vm_compute. reflexivity. Qed.

Example round2_example : round2 (1842181 # 1000) = 184218 / 100.
Proof. vm_compute. reflexivity. Qed.

(** A deposit equal to the loan amount: summary, error box, stop. *)
Example app_stops_on_full_deposit :
  app linear_pow (fun _ _ => false)
    (mkInputs 1000 1000 (75 # 10) Monthly 20 0 true true true false 2 true)
  = ([ev_summary 1000 1000 0 (75 # 10) 20 0; ev_error deposit_message],
     Halted Stopped).
Proof. vm_compute. reflexivity. Qed.

(** One year at rate 0 on 1200: the whole page, twelve rows. *)
Example app_zero_rate_year :
  let page := app linear_pow (fun _ _ => false)
                (mkInputs 1200 0 0 Quarterly 1 0 true true true false 2 true) in
  snd page = Ok tt
  /\ map event_kind (fst page)
     = [("summary", 0); ("metric", 0); ("metric", 0); ("metric", 0);
        ("metric", 0); ("months", 12); ("download", 12); ("dataframe", 12);
        ("pyplot", 0); ("pyplot", 0); ("pyplot", 0);
        ("rate", 0); ("rate", 0); ("rate", 0)]%string%nat.
Proof. vm_compute. split; reflexivity. Qed.

(** Rounding does change what the table shows: interest 1000/3 and 1600/9
    appear as 333.33 and 177.78, the frame keeps the fractions. *)
Example rounding_changes_display :
  option_map
    (fun df => (map (fun d => Interest (entry d)) df,
                map (fun d => Interest (entry d)) (display_df true df)))
    (amort_df (generateSchedule 1000 (1 # 3) 2 800))
  = Some ([1000 # 3; 1600 # 9], [33333 / 100; 17778 / 100]).
Proof. vm_compute. reflexivity. Qed.

(** Ties go to the even neighbour, as numpy rounds. *)
Example round2_ties :
  round2 (125 # 1000) = 12 / 100 /\ round2 (135 # 1000) = 14 / 100.
Proof. vm_compute. split; reflexivity. Qed.


(** ** The loop and its functional reading *)

Lemma for_loop_rows (r Pe : Q) (ms : list nat) (st : LoopState) :
  schedule_rows (for_loop r Pe ms st)
  = schedule_rows st ++ rows_from r Pe ms (balance st).
Proof.
  revert st. induction ms as [|m ms IH]; intros st; simpl.
  - now rewrite app_nil_r.
  - destruct (period r Pe m (balance st)) as [row bal'] eqn:E.
    destruct (Qle_bool bal' epsilon); simpl.
    + reflexivity.
    + rewrite IH. simpl. now rewrite <- app_assoc.
Qed.

Lemma generateSchedule_rows (P r : Q) (n : nat) (Pe : Q) :
  generateSchedule P r n Pe = rows_from r Pe (seq 1 n) P.
Proof.
  unfold generateSchedule, run_schedule. now rewrite for_loop_rows.
Qed.

Lemma rows_from_length (r Pe : Q) (ms : list nat) (bal : Q) :
  (List.length (rows_from r Pe ms bal) <= List.length ms)%nat.
Proof.
  revert bal. induction ms as [|m ms IH]; intros bal; simpl.
  - lia.
  - destruct (period r Pe m bal) as [row bal'].
    destruct (Qle_bool bal' epsilon); simpl.
    + lia.
    + specialize (IH bal'). lia.
Qed.

Lemma Qmax_0_le_epsilon (b : Q) : Qmax 0 b <= epsilon <-> b <= epsilon.
Proof.
  unfold epsilon.
  destruct (Q.max_spec 0 b) as [[H E]|[H E]]; rewrite E; split; intros; lra.
Qed.

Lemma period_Balance (r Pe : Q) (m : nat) (bal : Q) :
  Balance (fst (period r Pe m bal)) = Qmax 0 (snd (period r Pe m bal)).
Proof.
  unfold period. destruct (Qeq_bool r 0); reflexivity.
Qed.

Lemma Qle_bool_false (x y : Q) : Qle_bool x y = false -> y < x.
Proof.
  intros H. apply Qnot_le_lt. intros L.
  apply Qle_bool_iff in L. congruence.
Qed.

Lemma Qeq_bool_false (x y : Q) : Qeq_bool x y = false -> ~ x == y.
Proof.
  intros H E. apply Qeq_bool_iff in E. congruence.
Qed.

(** Decide a boolean test of the code and keep the fact it stands for. *)
Ltac case_test t :=
  let E := fresh "T" in
  destruct t eqn:E;
  [ first [ apply Qle_bool_iff in E | apply Qeq_bool_iff in E | idtac ]
  | first [ apply Qle_bool_false in E | apply Qeq_bool_false in E | idtac ] ].

(** Every row but the last was followed by another iteration, so its
    balance was above the threshold. *)
Lemma rows_from_inner (r Pe : Q) (ms : list nat) (bal : Q) (i : nat)
    (row : Row) :
  nth_error (rows_from r Pe ms bal) i = Some row ->
  (S i < List.length (rows_from r Pe ms bal))%nat ->
  epsilon < Balance row.
Proof.
  revert bal i. induction ms as [|m ms IH]; intros bal i; simpl.
  - destruct i; discriminate.
  - pose proof (period_Balance r Pe m bal) as HB.
    destruct (period r Pe m bal) as [row0 bal']. simpl in HB.
    case_test (Qle_bool bal' epsilon); simpl.
    + intros _ L. lia.
    + destruct i as [|i]; simpl.
      * intros [= <-] _. rewrite HB.
        apply Qlt_le_trans with bal'; [assumption | apply Q.le_max_r].
      * intros Hn L. apply (IH bal' i Hn). lia.
Qed.

(** A schedule shorter than the range ends on a balance at or below the
    threshold. *)
Lemma rows_from_short (r Pe : Q) (ms : list nat) (bal : Q) :
  (List.length (rows_from r Pe ms bal) < List.length ms)%nat ->
  exists row, last_row (rows_from r Pe ms bal) = Some row
              /\ Balance row <= epsilon.
Proof.
  revert bal. induction ms as [|m ms IH]; intros bal; simpl.
  - lia.
  - pose proof (period_Balance r Pe m bal) as HB.
    destruct (period r Pe m bal) as [row0 bal']. simpl in HB.
    case_test (Qle_bool bal' epsilon); simpl.
    + intros _. exists row0. split; [reflexivity|].
      rewrite HB. now apply Qmax_0_le_epsilon.
    + intros L. destruct (IH bal') as (row & Hl & Hb); [lia|].
      exists row. split; [|assumption].
      unfold last_row in *. simpl.
      destruct (rows_from r Pe ms bal') as [|x l]; [discriminate|exact Hl].
Qed.

Lemma rows_from_nonempty (r Pe : Q) (ms : list nat) (bal : Q) :
  ms <> [] -> rows_from r Pe ms bal <> [].
Proof.
  destruct ms as [|m ms]; [congruence|]. intros _. simpl.
  destruct (period r Pe m bal). discriminate.
Qed.

Lemma period_Month (r Pe : Q) (m : nat) (bal : Q) :
  Month (fst (period r Pe m bal)) = m.
Proof.
  unfold period. destruct (Qeq_bool r 0); reflexivity.
Qed.

Lemma rows_from_Month (r Pe : Q) (len start : nat) (bal : Q) :
  map Month (rows_from r Pe (seq start len) bal)
  = seq start (List.length (rows_from r Pe (seq start len) bal)).
Proof.
  revert start bal. induction len as [|len IH]; intros start bal; simpl.
  - reflexivity.
  - pose proof (period_Month r Pe start bal) as HM.
    destruct (period r Pe start bal) as [row0 bal']. simpl in HM.
    destruct (Qle_bool bal' epsilon); simpl; rewrite HM.
    + reflexivity.
    + now rewrite IH.
Qed.

(** The balance the loop leaves is the one the last row was built from. *)
Lemma for_loop_balance (r Pe : Q) (ms : list nat) (st : LoopState) :
  (List.length (rows_from r Pe ms (balance st)) < List.length ms)%nat ->
  balance (for_loop r Pe ms st) <= epsilon.
Proof.
  revert st. induction ms as [|m ms IH]; intros st; simpl.
  - lia.
  - destruct (period r Pe m (balance st)) as [row0 bal'].
    case_test (Qle_bool bal' epsilon); simpl.
    + intros _. assumption.
    + intros L. apply IH. simpl. lia.
Qed.

(** ** Early termination *)

(** C6.  For every input the loop appends a row per period and stops right
    after the first period whose balance, once the principal part is
    deducted, is at most 0.0001: the months recorded are 1, 2, ... without
    a gap, there are at most [n] rows, every row that has a successor left
    a balance above 0.0001 (so a schedule of [n] rows stayed above it
    through every earlier period), and a schedule of fewer than [n] rows
    ends on a balance at most 0.0001. *)
Theorem early_termination (P r : Q) (n : nat) (Pe : Q) :
  let st := run_schedule r Pe P n in
  let rows := generateSchedule P r n Pe in
  map Month rows = seq 1 (List.length rows)
  /\ (List.length rows <= n)%nat
  /\ (forall i row, nth_error rows i = Some row ->
        (S i < List.length rows)%nat -> epsilon < Balance row)
  /\ ((List.length rows < n)%nat ->
        balance st <= epsilon
        /\ exists row, last_row rows = Some row /\ Balance row <= epsilon).
Proof.
  cbv zeta. rewrite generateSchedule_rows.
  pose proof (rows_from_length r Pe (seq 1 n) P) as L.
  rewrite length_seq in L.
  split; [apply rows_from_Month|].
  split; [exact L|].
  split; [apply rows_from_inner|].
  intros S. split.
  - apply for_loop_balance. simpl. now rewrite length_seq.
  - apply rows_from_short. now rewrite length_seq.
Qed.

(** ** Zero rate *)

(** The branch taken when the rate is zero writes the literal [0] into
    the interest, whatever [balance * rate] was. *)
Lemma period_zero_rate (Pe : Q) (m : nat) (bal : Q) :
  period 0 Pe m bal
  = (mkRow m (if Qgt_bool (bal - Qmin bal Pe) 0 then Pe else Qmin bal Pe + 0)
       (Qmin bal Pe) 0 (Qmax 0 (bal - Qmin bal Pe)),
     bal - Qmin bal Pe).
Proof. reflexivity. Qed.

(** C5.  With rate 0, principal 1200, 12 periods and a payment of 100 the
    loop produces exactly 12 rows, each with principal part 100 and
    interest 0, and the last balance is 0; 100 is the payment the formula
    gives for these terms; and at rate 0 the interest of a row is the
    constant 0 and its principal part is min(balance, payment), for every
    balance and payment. *)
Theorem zero_rate_straight_line :
  let rows := generateSchedule 1200 0 12 100 in
  List.length rows = 12%nat
  /\ Forall (fun row => Principal row = 100 /\ Interest row = 0) rows
  /\ option_map Balance (last_row rows) = Some 0
  /\ (exists p, monthly_payment 1200 0 12 = Some p /\ p == 100)
  /\ (forall Pe m bal,
        Interest (fst (period 0 Pe m bal)) = 0
        /\ Principal (fst (period 0 Pe m bal)) = Qmin bal Pe).
Proof.
  cbv zeta. split; [vm_compute; reflexivity|].
  split; [vm_compute; repeat constructor|].
  split; [vm_compute; reflexivity|].
  split.
  - eexists. split; [vm_compute; reflexivity|reflexivity].
  - intros Pe m bal. rewrite period_zero_rate. split; reflexivity.
Qed.

(** ** Monotone balance *)

Lemma non_increasing_one (x : Q) : non_increasing [x].
Proof.
  intros [|i] a b Ha Hb; simpl in *; [discriminate|destruct i; discriminate].
Qed.

Lemma non_increasing_cons (x y : Q) (l : list Q) :
  y <= x -> non_increasing (y :: l) -> non_increasing (x :: y :: l).
Proof.
  intros L H [|i] a b Ha Hb; simpl in *.
  - injection Ha as <-. injection Hb as <-. exact L.
  - exact (H i a b Ha Hb).
Qed.

Lemma non_increasing_head (x x' : Q) (l : list Q) :
  x <= x' -> non_increasing (x :: l) -> non_increasing (x' :: l).
Proof.
  intros L H [|i] a b Ha Hb; simpl in *.
  - injection Ha as <-. apply Qle_trans with x; [|exact L].
    exact (H 0%nat x b eq_refl Hb).
  - exact (H (S i) a b Ha Hb).
Qed.

Lemma non_increasing_tail (x : Q) (l : list Q) :
  non_increasing (x :: l) -> non_increasing l.
Proof.
  intros H i a b Ha Hb. exact (H (S i) a b Ha Hb).
Qed.

(** One period when the payment covers the interest on the balance: the
    principal part is not negative and the balance does not grow. *)
Lemma period_covered (r Pe : Q) (m : nat) (bal : Q) :
  0 <= r -> 0 <= bal -> bal * r <= Pe ->
  let bal' := snd (period r Pe m bal) in
  0 <= bal' /\ bal' <= bal /\ bal' * r <= Pe
  /\ Balance (fst (period r Pe m bal)) == bal'.
Proof.
  intros Hr Hb Hp. cbv zeta. rewrite period_Balance.
  assert (K : 0 <= snd (period r Pe m bal) /\ snd (period r Pe m bal) <= bal).
  { unfold period. case_test (Qeq_bool r 0); simpl.
    - rewrite T in Hp.
      destruct (Q.min_spec bal Pe) as [[H E]|[H E]]; rewrite E; lra.
    - destruct (Q.min_spec bal (Pe - bal * r)) as [[H E]|[H E]];
        rewrite E; lra. }
  destruct K as [K1 K2]. repeat split; try assumption.
  - apply Qle_trans with (bal * r); [|exact Hp].
    apply Qmult_le_compat_r; assumption.
  - apply Q.max_r. exact K1.
Qed.

Lemma rows_from_covered (r Pe : Q) (ms : list nat) (bal : Q) :
  0 <= r -> 0 <= bal -> bal * r <= Pe ->
  non_increasing (bal :: balances (rows_from r Pe ms bal)).
Proof.
  intros Hr. revert bal.
  induction ms as [|m ms IH]; intros bal Hb Hp; simpl.
  - apply non_increasing_one.
  - destruct (period_covered r Pe m bal Hr Hb Hp) as (K1 & K2 & K3 & K4).
    destruct (period r Pe m bal) as [row bal']. simpl in *.
    apply non_increasing_cons; [rewrite K4; exact K2|].
    destruct (Qle_bool bal' epsilon); simpl.
    + apply non_increasing_one.
    + apply non_increasing_head with bal'; [rewrite K4; apply Qle_refl|].
      apply IH; assumption.
Qed.

(** The recorded balance is clamped at zero, whatever the inputs. *)
Lemma rows_from_nonneg (r Pe : Q) (ms : list nat) (bal : Q) :
  Forall (fun b => 0 <= b) (balances (rows_from r Pe ms bal)).
Proof.
  revert bal. induction ms as [|m ms IH]; intros bal; simpl.
  - constructor.
  - pose proof (period_Balance r Pe m bal) as HB.
    destruct (period r Pe m bal) as [row bal']. simpl in *.
    constructor.
    + rewrite HB. apply Q.le_max_l.
    + destruct (Qle_bool bal' epsilon); simpl; [constructor|apply IH].
Qed.

(** C2, as the code has it.  For effectivePrincipal > 0, r >= 0, n >= 1
    and Pe >= 0 every recorded endingBalance is >= 0; and when the payment
    covers the first period's interest (Pe >= effectivePrincipal * r) the
    endingBalance values, starting from effectivePrincipal, do not increase
    from entry to entry. *)
Theorem balance_monotone (P r : Q) (n : nat) (Pe : Q) :
  0 < P -> 0 <= r -> (1 <= n)%nat -> 0 <= Pe ->
  let bs := balances (generateSchedule P r n Pe) in
  Forall (fun b => 0 <= b) bs
  /\ (P * r <= Pe -> non_increasing (P :: bs) /\ non_increasing bs).
Proof.
  intros HP Hr Hn HPe. cbv zeta. rewrite generateSchedule_rows. split.
  - apply rows_from_nonneg.
  - intros Hc.
    assert (H : non_increasing (P :: balances (rows_from r Pe (seq 1 n) P))).
    { apply rows_from_covered; [assumption|lra|assumption]. }
    split; [exact H|exact (non_increasing_tail _ _ H)].
Qed.

(** [balance_monotone] at principal 1000, rate 1/8, two periods, payment
    600. *)
Lemma balance_monotone_witness :
  let bs := balances (generateSchedule 1000 (1 # 8) 2 600) in
  Forall (fun b => 0 <= b) bs
  /\ non_increasing (1000 :: bs) /\ non_increasing bs.
Proof.
  destruct (balance_monotone 1000 (1 # 8) 2 600) as [A B].
  - reflexivity.
  - discriminate.
  - lia.
  - discriminate.
  - split; [exact A|]. apply B. discriminate.
Defined.

(** C2 as stated fails: with principal 1000, rate 1/8 per period, two
    periods and a payment of 0 (all within the stated domain) the recorded
    balances are 1125 and 1265.625. *)
Lemma balance_can_grow :
  0 < 1000 /\ 0 <= 1 # 8 /\ (1 <= 2)%nat /\ 0 <= 0
  /\ balances (generateSchedule 1000 (1 # 8) 2 0) = [9000 # 8; 648000 # 512]
  /\ ~ non_increasing (balances (generateSchedule 1000 (1 # 8) 2 0)).
Proof.
  split; [reflexivity|]. split; [discriminate|]. split; [lia|].
  split; [discriminate|]. split; [vm_compute; reflexivity|].
  intros H.
  specialize (H 0%nat (9000 # 8) (648000 # 512) eq_refl eq_refl).
  revert H. vm_compute. intros H. apply H. reflexivity.
Qed.

(** ** The payment formula *)

Lemma growth_0 (r : Q) : growth r 0 == 1.
Proof. reflexivity. Qed.

Lemma growth_S (r : Q) (n : nat) :
  0 < 1 + r -> growth r (S n) == (1 + r) * growth r n.
Proof.
  intros H. unfold growth.
  rewrite Nat2Z.inj_succ, <- Z.add_1_l.
  rewrite Qpower_plus by lra. reflexivity.
Qed.

Lemma growth_ge_1 (r : Q) (n : nat) : 0 <= r -> 1 <= growth r n.
Proof.
  intros H. induction n as [|n IH].
  - rewrite growth_0. lra.
  - rewrite growth_S by lra. nra.
Qed.

Lemma growth_gt_1 (r : Q) (n : nat) : 0 < r -> (1 <= n)%nat -> 1 < growth r n.
Proof.
  intros H L. destruct n as [|n]; [lia|].
  pose proof (growth_ge_1 r n) as G.
  rewrite growth_S by lra. nra.
Qed.

(** With a positive rate and at least one period the formula divides by
    a positive number: no exception, and the annuity payment is returned. *)
Lemma monthly_payment_annuity (P r : Q) (n : nat) :
  0 < r -> (1 <= n)%nat ->
  monthly_payment P r n
  = Some (P * (r * growth r n) / (growth r n - 1)).
Proof.
  intros H L. unfold monthly_payment. fold (growth r n).
  pose proof (growth_gt_1 r n H L) as G.
  destruct (Nat.eqb_spec n 0); [lia|].
  case_test (Qeq_bool r 0); [lra|].
  case_test (Qeq_bool (growth r n - 1) 0); [lra|reflexivity].
Qed.

Lemma annuity_times_denominator (P r x : Q) :
  1 < x -> P * (r * x) / (x - 1) * (x - 1) == P * r * x.
Proof. intros H. field. lra. Qed.

(** The closed form of [cover]. *)
Lemma cover_closed (r Pe : Q) (j : nat) :
  0 < r -> cover r Pe j * (r * growth r j) == Pe * (growth r j - 1).
Proof.
  intros H. induction j as [|j IH]; simpl.
  - rewrite growth_0. ring.
  - rewrite growth_S by lra.
    transitivity ((cover r Pe j * (r * growth r j) + Pe * (r * growth r j))).
    + field. lra.
    + rewrite IH. ring.
Qed.

Lemma cover_nonneg (r Pe : Q) (j : nat) :
  0 <= r -> 0 <= Pe -> 0 <= cover r Pe j.
Proof.
  intros Hr HPe. induction j as [|j IH]; simpl.
  - lra.
  - apply Qle_shift_div_l; lra.
Qed.

Lemma cover_step (r Pe : Q) (j : nat) :
  0 <= r -> cover r Pe (S j) * (1 + r) == cover r Pe j + Pe.
Proof. intros H. simpl. field. lra. Qed.

(** ** One period, for every input *)

(** Whatever the rate, payment and balance: the balance left is not
    negative and is what the row records, the row's parts add up to its
    payment, and the payment is never more than the periodic payment. *)
Lemma period_facts (r Pe : Q) (m : nat) (bal : Q) :
  let row := fst (period r Pe m bal) in
  let bal' := snd (period r Pe m bal) in
  0 <= bal'
  /\ Balance row == bal'
  /\ bal' == bal - Principal row
  /\ Interest row == bal * r
  /\ Payment row == Principal row + Interest row
  /\ Payment row <= Pe
  /\ (0 < bal' -> Payment row = Pe)
  /\ bal' == Qmax 0 (bal * (1 + r) - Pe).
Proof.
  cbv zeta. rewrite period_Balance.
  unfold period, Qgt_bool.
  case_test (Qeq_bool r 0); cbn [fst snd Principal Interest Payment].
  - destruct (Q.min_spec bal Pe) as [[L E]|[L E]];
      destruct (Q.max_spec 0 (bal - Qmin bal Pe)) as [[L1 E1]|[L1 E1]];
      destruct (Q.max_spec 0 (bal * (1 + r) - Pe)) as [[L2 E2]|[L2 E2]];
      case_test (Qle_bool (bal - Qmin bal Pe) 0); cbn [negb];
      repeat split; try reflexivity; try lra; try nra.
  - set (x := Pe - bal * r).
    destruct (Q.min_spec bal x) as [[L E]|[L E]];
      destruct (Q.max_spec 0 (bal - Qmin bal x)) as [[L1 E1]|[L1 E1]];
      destruct (Q.max_spec 0 (bal * (1 + r) - Pe)) as [[L2 E2]|[L2 E2]];
      case_test (Qle_bool (bal - Qmin bal x) 0); cbn [negb];
      subst x; repeat split; try reflexivity; try lra.
Qed.

(** ** Payoff *)

(** One period at a positive rate: the balance left is
    [max(0, balance * (1 + r) - Pe)]. *)
Lemma period_positive_rate (r Pe : Q) (m : nat) (bal : Q) :
  0 < r ->
  let bal' := snd (period r Pe m bal) in
  (bal * (1 + r) - Pe <= 0 /\ bal' == 0)
  \/ (0 < bal * (1 + r) - Pe /\ bal' == bal * (1 + r) - Pe
      /\ Principal (fst (period r Pe m bal)) == Pe - bal * r
      /\ Interest (fst (period r Pe m bal)) == bal * r).
Proof.
  intros H. unfold period. case_test (Qeq_bool r 0); [lra|]. simpl.
  destruct (Q.min_spec bal (Pe - bal * r)) as [[L E]|[L E]].
  - left. rewrite E. split; lra.
  - destruct (Qeq_dec (bal * (1 + r) - Pe) 0) as [Z|NZ].
    + left. rewrite E. split; lra.
    + right. rewrite E. repeat split; lra.
Qed.

Lemma last_row_cons (row : Row) (rows : list Row) :
  rows <> [] -> last_row (row :: rows) = last_row rows.
Proof.
  destruct rows as [|x l]; [congruence|reflexivity].
Qed.

(** A balance that the remaining payments cover is paid off. *)
Lemma rows_from_payoff (r Pe : Q) (ms : list nat) (bal : Q) :
  0 < r -> 0 <= Pe -> ms <> [] ->
  0 <= bal -> bal <= cover r Pe (List.length ms) ->
  exists row, last_row (rows_from r Pe ms bal) = Some row
    /\ 0 <= Balance row /\ Balance row <= epsilon
    /\ (List.length (rows_from r Pe ms bal) = List.length ms ->
        Balance row == 0).
Proof.
  intros Hr HPe. revert bal.
  induction ms as [|m ms IH]; intros bal Hne Hb Hc; [congruence|].
  simpl in *.
  pose proof (period_positive_rate r Pe m bal Hr) as K. cbv zeta in K.
  pose proof (period_Balance r Pe m bal) as HB.
  pose proof (cover_step r Pe (List.length ms)) as CS. simpl in CS.
  assert (CS' : cover r Pe (List.length ms)
                == (cover r Pe (List.length ms) + Pe) / (1 + r) * (1 + r) - Pe).
  { rewrite CS; lra. }
  assert (CN := cover_nonneg r Pe (List.length ms)).
  assert (B' : 0 <= snd (period r Pe m bal)
               /\ snd (period r Pe m bal) <= cover r Pe (List.length ms)).
  { destruct K as [[K1 K2]|[K1 [K2 _]]]; rewrite K2; split; try lra.
    rewrite CS'.
    assert (bal * (1 + r)
            <= (cover r Pe (List.length ms) + Pe) / (1 + r) * (1 + r)).
    { apply Qmult_le_compat_r; lra. }
    lra. }
  clear K CS CS'.
  destruct (period r Pe m bal) as [row bal']. simpl in *.
  destruct B' as [B1 B2].
  assert (BR : Balance row == bal')
    by (rewrite HB; apply Q.max_r; exact B1).
  case_test (Qle_bool bal' epsilon).
  - exists row. split; [reflexivity|]. rewrite BR.
    repeat split; try assumption.
    simpl. intros L. destruct ms; [simpl in B2; lra|discriminate].
  - assert (Hms : ms <> []).
    { intros ->. simpl in B2. unfold epsilon in T. lra. }
    destruct (IH bal' Hms B1 B2) as (last & Hl & H0 & He & Hz).
    exists last. rewrite last_row_cons by (now apply rows_from_nonempty).
    repeat split; try assumption.
    simpl. intros L. apply Hz. lia.
Qed.

(** A payment at least the one of the formula covers the principal over
    [n] periods. *)
Lemma payment_covers_principal (P r : Q) (n : nat) (Pe : Q) :
  0 < r -> (1 <= n)%nat -> 0 <= P ->
  P * (r * growth r n) / (growth r n - 1) <= Pe ->
  P <= cover r Pe n.
Proof.
  intros Hr L HP Hp.
  pose proof (growth_gt_1 r n Hr L) as G.
  pose proof (annuity_times_denominator P r (growth r n) G) as A.
  pose proof (cover_closed r Pe n Hr) as C.
  set (x := growth r n) in *. set (p := P * (r * x) / (x - 1)) in *.
  assert (M : p * (x - 1) <= Pe * (x - 1)).
  { apply Qmult_le_compat_r; lra. }
  assert (Hrx : 0 < r * x) by nra.
  apply (Qmult_le_r _ _ (r * x) Hrx). lra.
Qed.

Lemma payoff_rows (P r : Q) (n : nat) (p Pe : Q) :
  0 < r -> (0 < n)%nat -> 0 < P ->
  monthly_payment P r n = Some p -> p <= Pe ->
  let rows := generateSchedule P r n Pe in
  (1 <= List.length rows <= n)%nat
  /\ exists row, last_row rows = Some row
       /\ 0 <= Balance row /\ Balance row <= epsilon
       /\ (List.length rows = n -> Balance row == 0).
Proof.
  intros Hr Hn HP E Hp. cbv zeta. rewrite generateSchedule_rows.
  rewrite monthly_payment_annuity in E by (assumption || lia).
  injection E as <-.
  assert (Hseq : seq 1 n <> []) by (destruct n; [lia|discriminate]).
  pose proof (rows_from_length r Pe (seq 1 n) P) as L.
  pose proof (rows_from_nonempty r Pe (seq 1 n) P Hseq) as NE.
  rewrite length_seq in L.
  split.
  - destruct (rows_from r Pe (seq 1 n) P); [congruence|simpl in *; lia].
  - pose proof (growth_gt_1 r n Hr Hn) as G.
    assert (HPe : 0 <= Pe).
    { apply Qle_trans with (P * (r * growth r n) / (growth r n - 1));
        [|exact Hp].
      apply Qle_shift_div_l; [lra|]. rewrite Qmult_0_l.
      repeat apply Qmult_le_0_compat; lra. }
    destruct (rows_from_payoff r Pe (seq 1 n) P Hr HPe Hseq) as (row & H).
    + lra.
    + rewrite length_seq. apply payment_covers_principal; (assumption || lra).
    + rewrite length_seq in H. exists row. exact H.
Qed.

(** In exact arithmetic, the rounding of doubles left out: for r > 0,
    n > 0 and principal > 0 the payment formula returns a payment, and
    with any Pe at least that payment the loop produces between 1 and n
    rows and the balance of the last row is at most 0.0001 (and not
    negative); when all n rows are produced it is 0. *)
Theorem payoff (P r : Q) (n : nat) :
  0 < r -> (0 < n)%nat -> 0 < P ->
  exists p, monthly_payment P r n = Some p
    /\ forall Pe, p <= Pe ->
       let rows := generateSchedule P r n Pe in
       (1 <= List.length rows <= n)%nat
       /\ exists row, last_row rows = Some row
            /\ 0 <= Balance row /\ Balance row <= epsilon
            /\ (List.length rows = n -> Balance row == 0).
Proof.
  intros Hr Hn HP. eexists. split.
  - apply monthly_payment_annuity; [assumption|lia].
  - intros Pe Hp.
    apply payoff_rows with (p := P * (r * growth r n) / (growth r n - 1));
      try assumption.
    apply monthly_payment_annuity; [assumption|lia].
Qed.

(** [payoff] at principal 1000, rate 1/8, two periods, with the payment
    600 above the one of the formula. *)
Lemma payoff_witness :
  exists p, monthly_payment 1000 (1 # 8) 2 = Some p /\ p <= 600
    /\ let rows := generateSchedule 1000 (1 # 8) 2 600 in
       (1 <= List.length rows <= 2)%nat
       /\ exists row, last_row rows = Some row
            /\ 0 <= Balance row /\ Balance row <= epsilon
            /\ (List.length rows = 2%nat -> Balance row == 0).
Proof.
  destruct (payoff 1000 (1 # 8) 2) as (p & E & H).
  - reflexivity.
  - lia.
  - reflexivity.
  - exists p. split; [exact E|].
    assert (L : p <= 600).
    { vm_compute in E. injection E as <-. discriminate. }
    split; [exact L|]. exact (H 600 L).
Defined.




(** ** Underpayment *)

Lemma amort_df_length (rows : list Row) :
  rows <> [] ->
  exists df, amort_df rows = Some df /\ List.length df = List.length rows.
Proof.
  intros NE. destruct rows as [|row rows]; [congruence|].
  eexists. split; [reflexivity|]. simpl. f_equal. clear NE.
  generalize (Interest row) (Principal row).
  induction rows as [|x l IH]; intros a b; simpl; [reflexivity|].
  f_equal. apply IH.
Qed.

Lemma period_snd_month (r Pe : Q) (m m' : nat) (bal : Q) :
  snd (period r Pe m bal) = snd (period r Pe m' bal).
Proof. unfold period. destruct (Qeq_bool r 0); reflexivity. Qed.

Lemma balance_after_S (r Pe bal : Q) (m k : nat) :
  balance_after r Pe bal (S k)
  = balance_after r Pe (snd (period r Pe m bal)) k.
Proof. simpl. now rewrite (period_snd_month r Pe 1 m). Qed.

Arguments balance_after : simpl never.

(** The rows are the balances of the unstopped loop, clamped at zero, up
    to and including the first one at or below the threshold. *)
Lemma rows_from_until (r Pe : Q) (ms : list nat) (bal : Q) :
  (forall i row, nth_error (rows_from r Pe ms bal) i = Some row ->
     Balance row = Qmax 0 (balance_after r Pe bal (S i)))
  /\ (forall k, (1 <= k < List.length (rows_from r Pe ms bal))%nat ->
        epsilon < balance_after r Pe bal k)
  /\ ((List.length (rows_from r Pe ms bal) < List.length ms)%nat ->
      balance_after r Pe bal (List.length (rows_from r Pe ms bal))
      <= epsilon).
Proof.
  revert bal. induction ms as [|m ms IH]; intros bal.
  - cbn [rows_from List.length]. repeat split; intros; try lia.
    destruct i; discriminate.
  - pose proof (period_Balance r Pe m bal) as HB.
    pose proof (fun k => balance_after_S r Pe bal m k) as BS.
    cbn [rows_from].
    destruct (period r Pe m bal) as [row0 bal']. cbn [fst snd] in HB, BS.
    assert (B0 : balance_after r Pe bal' 0 = bal') by reflexivity.
    case_test (Qle_bool bal' epsilon); cbn [List.length].
    + repeat split.
      * intros [|i] row; cbn [nth_error]; [|destruct i; discriminate].
        intros [= <-]. now rewrite BS, B0.
      * intros k Hk. lia.
      * intros _. rewrite BS, B0. exact T.
    + destruct (IH bal') as (I1 & I2 & I3). repeat split.
      * intros [|i] row; cbn [nth_error].
        -- intros [= <-]. now rewrite BS, B0.
        -- intros N. rewrite BS. exact (I1 i row N).
      * intros [|[|k]] Hk; [lia| |].
        -- rewrite BS, B0. exact T.
        -- rewrite BS. apply I2. lia.
      * intros L. rewrite BS. apply I3. lia.
Qed.

(** A payment that does not even cover the interest on the principal:
    the balance never falls, so the loop is never stopped. *)
Lemma rows_from_interest_only (r Pe P : Q) (ms : list nat) (bal : Q) :
  0 <= r -> Pe <= P * r -> epsilon < P -> P <= bal ->
  List.length (rows_from r Pe ms bal) = List.length ms
  /\ Forall (fun row => P <= Balance row) (rows_from r Pe ms bal).
Proof.
  intros Hr Hp He. revert bal.
  induction ms as [|m ms IH]; intros bal Hb; simpl.
  - split; [reflexivity|constructor].
  - pose proof (period_facts r Pe m bal) as F. cbv zeta in F.
    destruct F as (_ & F1 & _ & _ & _ & _ & _ & F7).
    destruct (period r Pe m bal) as [row bal']. cbn [fst snd] in *.
    assert (G : bal <= bal').
    { rewrite F7.
      apply Qle_trans with (bal * (1 + r) - Pe); [|apply Q.le_max_r].
      assert (P * r <= bal * r) by (apply Qmult_le_compat_r; assumption).
      lra. }
    case_test (Qle_bool bal' epsilon); [lra|].
    destruct (IH bal') as [I1 I2]; [lra|]. split.
    + simpl. now rewrite I1.
    + constructor; [rewrite F1; lra|exact I2].
Qed.

(** C7, as the code has it.  For r > 0, effectivePrincipal > 0, n >= 1
    and Pe below the payment of the formula, the outcome is no error: the
    schedule has at least one entry and the data frame with the
    cumulative columns is built from it.  The endingBalance of entry i is
    the balance the unstopped loop has after i periods, clamped at 0.  The
    loop runs to exactly n entries if and only if that balance is above
    0.0001 after each of the periods 1..n-1; otherwise it stops at the
    first period whose balance is at most 0.0001.  When Pe does not even
    cover the first period's interest and the principal is above 0.0001,
    the balance never falls: there are exactly n entries and every
    endingBalance, the final one included, is at least the principal. *)
Theorem underpayment_outcome (P r : Q) (n : nat) (p Pe : Q) :
  0 < r -> 0 < P -> (1 <= n)%nat ->
  monthly_payment P r n = Some p -> Pe < p ->
  let rows := generateSchedule P r n Pe in
  (exists df, amort_df rows = Some df
              /\ List.length df = List.length rows)
  /\ (1 <= List.length rows <= n)%nat
  /\ (forall i row, nth_error rows i = Some row ->
        Balance row = Qmax 0 (balance_after r Pe P (S i)))
  /\ (List.length rows = n <->
      forall k, (1 <= k < n)%nat -> epsilon < balance_after r Pe P k)
  /\ ((List.length rows < n)%nat ->
      balance_after r Pe P (List.length rows) <= epsilon
      /\ forall k, (1 <= k < List.length rows)%nat ->
           epsilon < balance_after r Pe P k)
  /\ (Pe <= P * r -> epsilon < P ->
      List.length rows = n /\ Forall (fun row => P <= Balance row) rows).
Proof.
  intros Hr HP Hn _ _. cbv zeta. rewrite generateSchedule_rows.
  assert (Hseq : seq 1 n <> []) by (destruct n; [lia|discriminate]).
  pose proof (rows_from_length r Pe (seq 1 n) P) as L.
  pose proof (rows_from_nonempty r Pe (seq 1 n) P Hseq) as NE.
  destruct (rows_from_until r Pe (seq 1 n) P) as (U1 & U2 & U3).
  pose proof (rows_from_interest_only r Pe P (seq 1 n) P) as IO.
  rewrite length_seq in L, U3, IO.
  set (rows := rows_from r Pe (seq 1 n) P) in *.
  assert (Len : (1 <= List.length rows)%nat).
  { destruct rows; [congruence|simpl; lia]. }
  split; [now apply amort_df_length|].
  split; [lia|]. split; [exact U1|]. split; [split|split].
  - intros E k Hk. apply U2. lia.
  - intros H. destruct (Nat.eq_dec (List.length rows) n) as [|Hne];
      [assumption|exfalso].
    assert (S : (List.length rows < n)%nat) by lia.
    specialize (U3 S). specialize (H (List.length rows)).
    assert (epsilon < balance_after r Pe P (List.length rows))
      by (apply H; lia).
    lra.
  - intros S. split; [exact (U3 S)|exact U2].
  - intros Hp He. apply IO; try assumption; lra.
Qed.

(** [underpayment_outcome] at principal 1000, rate 1/8, two periods,
    payment 100, which is below the 125 of the first interest and the
    595.59 of the formula. *)
Lemma underpayment_outcome_witness :
  let rows := generateSchedule 1000 (1 # 8) 2 100 in
  (exists df, amort_df rows = Some df
              /\ List.length df = List.length rows)
  /\ (1 <= List.length rows <= 2)%nat
  /\ (forall i row, nth_error rows i = Some row ->
        Balance row = Qmax 0 (balance_after (1 # 8) 100 1000 (S i)))
  /\ (List.length rows = 2%nat <->
      forall k, (1 <= k < 2)%nat ->
        epsilon < balance_after (1 # 8) 100 1000 k)
  /\ ((List.length rows < 2)%nat ->
      balance_after (1 # 8) 100 1000 (List.length rows) <= epsilon
      /\ forall k, (1 <= k < List.length rows)%nat ->
           epsilon < balance_after (1 # 8) 100 1000 k)
  /\ (100 <= 1000 * (1 # 8) -> epsilon < 1000 ->
      List.length rows = 2%nat
      /\ Forall (fun row => 1000 <= Balance row) rows).
Proof.
  apply (underpayment_outcome 1000 (1 # 8) 2 (5184000 # 8704) 100).
  - reflexivity.
  - reflexivity.
  - lia.
  - vm_compute. reflexivity.
  - reflexivity.
Defined.

(** C7 as stated fails: with principal 0.0001, rate 1 per period, two
    periods and a payment of 0.0001, which is below the payment of the
    formula (0.000133...), the balance after the first period is 0.0001,
    the loop stops there and the schedule has one entry, not two. *)
Lemma underpaid_stops_early :
  0 < 1 /\ 0 < 1 # 10000
  /\ monthly_payment (1 # 10000) 1 2 = Some (4 # 30000)
  /\ 1 # 10000 < 4 # 30000
  /\ map Balance (generateSchedule (1 # 10000) 1 2 (1 # 10000))
     = [100000000 # 1000000000000]
  /\ List.length (generateSchedule (1 # 10000) 1 2 (1 # 10000)) <> 2%nat.
Proof.
  repeat split; try reflexivity. vm_compute. discriminate.
Qed.

(** ** Cumulative columns *)

Lemma fold_left_Qplus (l : list Q) (a : Q) :
  fold_left Qplus l a == a + sum l.
Proof.
  unfold sum. revert a. induction l as [|x l IH]; intros a; simpl.
  - ring.
  - rewrite (IH (a + x)), (IH (0 + x)). ring.
Qed.

Lemma sum_cons (x : Q) (l : list Q) : sum (x :: l) == x + sum l.
Proof.
  unfold sum at 1. simpl. rewrite fold_left_Qplus. ring.
Qed.

Lemma sum_nil : sum [] = 0.
Proof. reflexivity. Qed.

Arguments sum : simpl never.

Lemma cumsum_from_nth (l : list Q) (a : Q) (i : nat) (c : Q) :
  nth_error (cumsum_from a l) i = Some c -> c == a + sum (firstn (S i) l).
Proof.
  revert a i c. induction l as [|x l IH]; intros a i c H.
  - destruct i; discriminate.
  - rewrite firstn_cons, sum_cons. destruct i as [|i]; simpl in H.
    + injection H as <-. rewrite firstn_O, sum_nil. ring.
    + apply IH in H. rewrite H. ring.
Qed.

Lemma cumsum_nth (l : list Q) (i : nat) (c : Q) :
  nth_error (cumsum l) i = Some c -> c == sum (firstn (S i) l).
Proof.
  intros H. destruct l as [|x l].
  - destruct i; discriminate.
  - rewrite firstn_cons, sum_cons. destruct i as [|i]; simpl in H.
    + injection H as <-. rewrite firstn_O, sum_nil. ring.
    + apply cumsum_from_nth in H. exact H.
Qed.

Lemma zip3_nth (rows : list Row) (ci cp : list Q) (i : nat) (d : DfRow) :
  nth_error (zip3 rows ci cp) i = Some d ->
  nth_error rows i = Some (entry d)
  /\ nth_error ci i = Some (Cumulative_Interest d)
  /\ nth_error cp i = Some (Cumulative_Principal d).
Proof.
  revert ci cp i.
  induction rows as [|row rows IH]; intros ci cp i; simpl.
  - destruct i; discriminate.
  - destruct ci as [|a ci]; [destruct i; discriminate|].
    destruct cp as [|b cp]; [destruct i; discriminate|].
    destruct i as [|i]; simpl.
    + intros [= <-]. repeat split.
    + apply IH.
Qed.

Lemma zip3_entries (rows : list Row) (ci cp : list Q) :
  List.length ci = List.length rows -> List.length cp = List.length rows ->
  map entry (zip3 rows ci cp) = rows.
Proof.
  revert ci cp. induction rows as [|row rows IH]; intros ci cp; simpl.
  - reflexivity.
  - destruct ci as [|a ci]; [discriminate|].
    destruct cp as [|b cp]; [discriminate|].
    simpl. intros [= H1] [= H2]. f_equal. now apply IH.
Qed.

Lemma cumsum_length (l : list Q) : List.length (cumsum l) = List.length l.
Proof.
  destruct l as [|x l]; [reflexivity|]. simpl. f_equal.
  generalize x. induction l as [|y l IH]; intros a; simpl;
    [reflexivity|f_equal; apply IH].
Qed.

Lemma amort_df_consistent (rows : list Row) (df : list DfRow) :
  amort_df rows = Some df ->
  map entry df = rows /\ cumulative_consistent df.
Proof.
  unfold amort_df. intros H.
  assert (E : df = zip3 rows (cumsum (map Interest rows))
                             (cumsum (map Principal rows))).
  { destruct rows; [discriminate|]. now injection H as <-. }
  clear H.
  assert (M : map entry df = rows).
  { subst df. apply zip3_entries; now rewrite cumsum_length, length_map. }
  split; [exact M|].
  intros i d N.
  rewrite <- !(map_map entry). rewrite <- !firstn_map. rewrite M.
  subst df. apply zip3_nth in N. destruct N as (_ & N1 & N2).
  apply cumsum_nth in N1, N2. split; assumption.
Qed.

Lemma inflation_column_consistent (fpow : Q -> Q -> Q) (i : Inputs)
    (df : list DfRow) :
  cumulative_consistent df ->
  cumulative_consistent (inflation_column fpow i df).
Proof.
  unfold inflation_column.
  destruct (inflation_adj i && Qgt_bool (inflation_rate i) 0); [|tauto].
  intros H k d N.
  rewrite nth_error_map in N.
  destruct (nth_error df k) as [d0|] eqn:N0; [|discriminate].
  injection N as <-. cbn [Cumulative_Interest Cumulative_Principal].
  rewrite !firstn_map, !map_map. cbn [entry].
  exact (H k d0 N0).
Qed.

(** C4.  Every schedule of at least one period gives a data frame, whose
    entries are the schedule's rows in order, and in that frame (before
    and after the optional inflation column is added) the cumulative
    interest of entry i is the sum of the interest of entries 0..i and
    the cumulative principal of entry i is the sum of the principal of
    entries 0..i. *)
Theorem cumulative_sum_consistency (P r : Q) (n : nat) (Pe : Q) :
  (1 <= n)%nat ->
  exists df, amort_df (generateSchedule P r n Pe) = Some df
    /\ map entry df = generateSchedule P r n Pe
    /\ cumulative_consistent df
    /\ forall fpow i, cumulative_consistent (inflation_column fpow i df).
Proof.
  intros Hn.
  assert (NE : generateSchedule P r n Pe <> []).
  { rewrite generateSchedule_rows. apply rows_from_nonempty.
    destruct n; [lia|discriminate]. }
  destruct (amort_df_length _ NE) as (df & E & _).
  exists df. destruct (amort_df_consistent _ _ E) as [M C].
  repeat split; try assumption.
  - apply C. assumption.
  - apply C. assumption.
  - apply inflation_column_consistent; assumption.
  - apply inflation_column_consistent; assumption.
Qed.

(** [cumulative_sum_consistency] on the zero-rate schedule of twelve
    periods. *)
Lemma cumulative_sum_consistency_witness :
  exists df, amort_df (generateSchedule 1200 0 12 100) = Some df
    /\ map entry df = generateSchedule 1200 0 12 100
    /\ cumulative_consistent df
    /\ forall fpow i, cumulative_consistent (inflation_column fpow i df).
Proof.
  apply (cumulative_sum_consistency 1200 0 12 100). lia.
Defined.

Example cumulative_columns :
  option_map (map (fun d => (Cumulative_Interest d, Cumulative_Principal d)))
    (amort_df (generateSchedule 1000 (1 # 2) 2 900))
  = Some [(1000 # 2, 800 # 2); (6400 # 8, 4000 # 4)].
Proof. vm_compute. reflexivity. Qed.

(** ** The script *)

(** Decide every [if] of the goal. *)
Ltac split_tests :=
  repeat match goal with
         | |- context [if ?b then _ else _] => destruct b
         end.

Section AppFacts.

Variable fpow : Q -> Q -> Q.
Variable pie_raises : Q -> Q -> bool.

Lemma bind_trace {A B} (s : Script A) (k : A -> Script B) :
  fst (bind s k)
  = fst s ++ match snd s with
             | Ok a => fst (k a)
             | Halted _ => []
             end.
Proof.
  destruct s as [t [a|h]]; simpl.
  - destruct (k a); reflexivity.
  - now rewrite app_nil_r.
Qed.

Lemma bind_result {A B} (s : Script A) (k : A -> Script B) :
  snd (bind s k)
  = match snd s with
    | Ok a => snd (k a)
    | Halted h => Halted h
    end.
Proof.
  destruct s as [t [a|h]]; simpl; [destruct (k a)|]; reflexivity.
Qed.

(** The calculation part shows nothing; it ends in one of the two
    exceptions or hands over what it computed. *)
Lemma calculations_cases (i : Inputs) (ep : Q) :
  let r := monthly_rate fpow (compounding i) (interest_rate i / 100) in
  let n := (duration_years i * 12)%nat in
  calculations fpow i ep
  = match monthly_payment ep r n with
    | None => ([], Halted (Raised ZeroDivisionError))
    | Some base =>
        let st := run_schedule r (base + extra_payment i) ep n in
        match amort_df (schedule_rows st) with
        | None => ([], Halted (Raised KeyError))
        | Some df =>
            ([], Ok (mkCalc n r base (base + extra_payment i) st
                       (inflation_column fpow i df)
                       (display_df (rounding i)
                          (inflation_column fpow i df))))
        end
    end.
Proof.
  cbv zeta. unfold calculations.
  destruct (monthly_payment _ _ _) as [base|]; [|reflexivity]. simpl.
  destruct (amort_df _) as [df|]; reflexivity.
Qed.

(** The output part never halts. *)
Lemma results_result (i : Inputs) (c : Calc) :
  snd (results pie_raises i c) = Ok tt.
Proof.
  unfold results, when; split_tests; reflexivity.
Qed.

End AppFacts.

(** ** The deposit check *)

Lemma quiet_ret {A} (a : A) : quiet (ret a).
Proof. split; [intros msg []|discriminate]. Qed.

Lemma quiet_raise {A} (e : Exn) : quiet (@raise A e).
Proof. split; [intros msg []|discriminate]. Qed.

Lemma quiet_lift {A} (e : Exn) (o : option A) : quiet (lift e o).
Proof. destruct o; [apply quiet_ret|apply quiet_raise]. Qed.

Lemma quiet_emit (e : Event) :
  (forall msg, e <> ev_error msg) -> quiet (emit e).
Proof.
  intros H. split; [|discriminate].
  intros msg [E|[]]. exact (H msg E).
Qed.

Lemma quiet_bind {A B} (s : Script A) (k : A -> Script B) :
  quiet s -> (forall a, quiet (k a)) -> quiet (bind s k).
Proof.
  intros [T R] K. unfold quiet. destruct s as [t [a|h]]; simpl in *.
  - destruct (K a) as [Ta Ra]. destruct (k a) as [t' r']. simpl in *.
    split; [|exact Ra].
    intros msg I. apply in_app_or in I. destruct I as [I|I].
    + exact (T msg I).
    + exact (Ta msg I).
  - split; [exact T|].
    intros E. apply R. injection E as ->. reflexivity.
Qed.

Lemma quiet_when (b : bool) (s : Script unit) : quiet s -> quiet (when b s).
Proof. destruct b; [trivial|intros _; apply quiet_ret]. Qed.

Lemma quiet_for_each {A} (l : list A) (body : A -> Script unit) :
  (forall a, quiet (body a)) -> quiet (for_each l body).
Proof.
  intros H. induction l as [|a l IH]; simpl.
  - apply quiet_ret.
  - apply quiet_bind; [apply H|intros _; exact IH].
Qed.

(** Build [quiet] along the structure of a script. *)
Ltac quiet_script :=
  repeat first
    [ apply quiet_ret
    | apply quiet_lift
    | apply quiet_when
    | apply quiet_for_each; intros
    | apply quiet_bind; [|intros]
    | apply quiet_emit; intros; discriminate
    | match goal with
      | |- quiet (if ?b then _ else _) => destruct b
      | |- quiet (let _ := _ in _) => cbv zeta
      end ].

Section DepositCheck.

Variable fpow : Q -> Q -> Q.
Variable pie_raises : Q -> Q -> bool.

Lemma quiet_calculations (i : Inputs) (ep : Q) :
  quiet (calculations fpow i ep).
Proof. unfold calculations. quiet_script. Qed.

Lemma quiet_results (i : Inputs) (c : Calc) :
  quiet (results pie_raises i c).
Proof. unfold results. quiet_script. Qed.

Lemma quiet_sensitivity (i : Inputs) (ep : Q) (n : nat) :
  quiet (sensitivity fpow i ep n).
Proof. unfold sensitivity. quiet_script. Qed.

(** C9.  The effective principal is <= 0 exactly when the deposit is at
    least the principal.  In that case the page shows the summary and
    the corrective error message and stops there: no metric, table,
    chart or download follows.  When the effective principal is > 0 no
    error message is shown and the run is not stopped. *)
Theorem deposit_covers_loan (i : Inputs) :
  let ep := Qmax 0 (principal i - deposit i) in
  (ep <= 0 <-> principal i <= deposit i)
  /\ (ep <= 0 ->
      app fpow pie_raises i
      = ([ev_summary (principal i) (deposit i) ep (interest_rate i)
            (duration_years i) (extra_payment i);
          ev_error deposit_message],
         Halted Stopped))
  /\ (0 < ep -> quiet (app fpow pie_raises i)).
Proof.
  cbv zeta. split; [|split].
  - destruct (Q.max_spec 0 (principal i - deposit i)) as [[H E]|[H E]];
      rewrite E; split; intros; lra.
  - intros H. unfold app.
    case_test (Qle_bool (Qmax 0 (principal i - deposit i)) 0); [|lra].
    reflexivity.
  - intros H. unfold app.
    case_test (Qle_bool (Qmax 0 (principal i - deposit i)) 0); [lra|].
    quiet_script.
Qed.

End DepositCheck.

(** ** Rounding *)

Section Rounding.

Variable fpow : Q -> Q -> Q.
Variable pie_raises : Q -> Q -> bool.

(** The output part reads the display frame for the table only. *)
Lemma results_table_only (i : Inputs) (b : bool) (n : nat) (r base pe : Q)
    (st : LoopState) (df d d' : list DfRow) :
  filter not_table
    (fst (results pie_raises (set_rounding b i) (mkCalc n r base pe st df d)))
  = filter not_table
      (fst (results pie_raises i (mkCalc n r base pe st df d'))).
Proof.
  unfold results, when.
  cbn [set_rounding download_csv show_amort show_graphs c_amort_df
       c_display_df c_base_monthly_payment c_monthly_payment_with_extra
       c_loop].
  split_tests; reflexivity.
Qed.

Lemma app_rounding (i : Inputs) (b : bool) :
  filter not_table (fst (app fpow pie_raises (set_rounding b i)))
  = filter not_table (fst (app fpow pie_raises i))
  /\ snd (app fpow pie_raises (set_rounding b i))
     = snd (app fpow pie_raises i).
Proof.
  unfold app. rewrite !calculations_cases.
  cbn [set_rounding principal deposit interest_rate duration_years
       extra_payment compounding rounding].
  destruct (Qle_bool _ 0); [split; reflexivity|].
  destruct (monthly_payment _ _ _) as [base|]; [|split; reflexivity].
  cbv zeta.
  destruct (amort_df _) as [df|]; [|split; reflexivity].
  rewrite !bind_trace, !bind_result. cbn [emit ret fst snd c_total_months].
  rewrite !bind_trace, !bind_result. cbn [emit ret fst snd c_total_months].
  rewrite !results_result.
  change (sensitivity fpow (set_rounding b i))
    with (sensitivity fpow i).
  change (inflation_column fpow (set_rounding b i) df)
    with (inflation_column fpow i df).
  split; [|reflexivity].
  rewrite !filter_app.
  rewrite (results_table_only i b _ _ _ _ _ _ _
             (display_df (rounding i) (inflation_column fpow i df))).
  reflexivity.
Qed.

(** C8.  Changing the rounding checkbox changes nothing that is
    computed: the calculation ends the same way, and when it succeeds
    the loop state (balance, totals, rows), the payments and the data
    frame are the same at full precision; only the display frame
    differs, being the data frame rounded cell by cell (or the frame
    itself when rounding is off), with the months untouched.  On the
    page, everything but the schedule table (metrics, download, charts)
    is the same with and without rounding. *)
Theorem rounding_is_display_only (i : Inputs) (b : bool) (ep : Q) :
  match calculations fpow (set_rounding b i) ep, calculations fpow i ep with
  | (_, Ok c), (_, Ok c0) =>
      c_loop c = c_loop c0
      /\ c_amort_df c = c_amort_df c0
      /\ c_base_monthly_payment c = c_base_monthly_payment c0
      /\ c_monthly_payment_with_extra c = c_monthly_payment_with_extra c0
      /\ c_display_df c0 = display_df (rounding i) (c_amort_df c0)
      /\ c_display_df c = display_df b (c_amort_df c0)
  | (_, Halted h), (_, Halted h0) => h = h0
  | _, _ => False
  end
  /\ (forall df, display_df true df = map round_row df
                 /\ display_df false df = df
                 /\ map (fun d => Month (entry d)) (display_df true df)
                    = map (fun d => Month (entry d)) df)
  /\ filter not_table (fst (app fpow pie_raises (set_rounding b i)))
     = filter not_table (fst (app fpow pie_raises i))
  /\ snd (app fpow pie_raises (set_rounding b i))
     = snd (app fpow pie_raises i).
Proof.
  split; [|split; [|apply app_rounding]].
  - rewrite !calculations_cases.
    cbn [set_rounding interest_rate duration_years extra_payment
         compounding rounding].
    destruct (monthly_payment _ _ _) as [base|]; [|reflexivity].
    cbv zeta. destruct (amort_df _) as [df|]; [|reflexivity].
    repeat split.
  - intros df. repeat split. simpl. rewrite map_map. reflexivity.
Qed.

End Rounding.

(** ** Compounding and the number of periods *)

Section Periods.

Variable fpow : Q -> Q -> Q.
Variable pie_raises : Q -> Q -> bool.



End Periods.


(** ** Rate conversion *)

Section Rate.

Local Open Scope R_scope.

Lemma cube_root_of_quarter : 1 / 2 <= Rpower (1 / 4) (1 / 3).
Proof.
  assert (H : Rpower (1 / 8) (1 / 3) = 1 / 2).
  { replace (1 / 8) with (Rpower (1 / 2) (INR 3)).
    - rewrite Rpower_mult.
      replace (INR 3 * (1 / 3)) with 1 by (simpl; Lra.lra).
      apply Rpower_1. Lra.lra.
    - rewrite Rpower_pow by Lra.lra. simpl. Lra.lra. }
  rewrite <- H. apply Rle_Rpower_l; Lra.lra.
Qed.

Lemma pow12_Rpower (x y : R) :
  0 < x -> (Rpower x y) ^ 12 = Rpower x (y * 12).
Proof.
  intros H. rewrite <- Rpower_pow by apply exp_pos.
  rewrite Rpower_mult. f_equal. simpl. Lra.lra.
Qed.

Lemma monthly_compounds_to_annual (a : R) :
  0 <= a -> (1 + RateConversion.monthly_rate Monthly a) ^ 12 = 1 + a.
Proof.
  intros H. unfold RateConversion.monthly_rate.
  replace (1 + (Rpower (1 + a) (1 / 12) - 1)) with (Rpower (1 + a) (1 / 12))
    by Lra.lra.
  rewrite pow12_Rpower by Lra.lra.
  replace (1 / 12 * 12) with 1 by Lra.lra.
  apply Rpower_1. Lra.lra.
Qed.

Lemma quarterly_compounds_beyond (a : R) :
  0 <= a -> (1 + a) ^ 6 <= (1 + RateConversion.monthly_rate Quarterly a) ^ 12.
Proof.
  intros H. unfold RateConversion.monthly_rate.
  replace (1 + (Rpower (1 + a) (Rpower (1 / 4) (1 / 3)) - 1))
    with (Rpower (1 + a) (Rpower (1 / 4) (1 / 3))) by Lra.lra.
  rewrite pow12_Rpower by Lra.lra.
  rewrite <- Rpower_pow by Lra.lra.
  apply Rle_Rpower; [Lra.lra|].
  pose proof cube_root_of_quarter. simpl. Lra.lra.
Qed.

(** For every positive annual rate the quarterly branch compounds, over
    twelve months, to more than quarterly compounding of a/4 does over
    four quarters. *)
Lemma quarterly_never_equivalent (a : R) :
  0 < a -> (1 + a / 4) ^ 4 < (1 + RateConversion.monthly_rate Quarterly a) ^ 12.
Proof.
  intros H.
  apply Rlt_le_trans with ((1 + a) ^ 6);
    [|apply quarterly_compounds_beyond; Lra.lra].
  apply Rle_lt_trans with ((1 + a) ^ 4).
  - apply pow_incr. Lra.lra.
  - assert (P4 : 0 < (1 + a) ^ 4) by (apply pow_lt; Lra.lra).
    replace ((1 + a) ^ 6) with ((1 + a) ^ 4 * ((1 + a) * (1 + a))) by ring.
    assert (1 < (1 + a) * (1 + a)) by Lra.nra.
    Lra.nra.
Qed.

(** C1 at the default rate.  With annualRatePercent = 7.5 and Quarterly
    compounding the code returns r = 1.075 ** (0.25 ** (1/3)) - 1.
    Quarterly compounding of a/4 per quarter gives (1 + a/4)^4, which is
    below 1.5, while (1 + r)^12 is above 1.5: the returned rate is not
    the monthly equivalent of quarterly compounding.  The Monthly branch,
    on the same rate, returns r with (1 + r)^12 = 1 + a. *)
Theorem quarterly_rate_at_default :
  let a := 75 / 1000 in
  let r := RateConversion.computePeriodicRate (75 / 10) Quarterly in
  r = Rpower (1 + a) (Rpower (1 / 4) (1 / 3)) - 1
  /\ (1 + a / 4) ^ 4 < 3 / 2
  /\ 3 / 2 < (1 + r) ^ 12
  /\ (1 + r) ^ 12 <> (1 + a / 4) ^ 4
  /\ (1 + RateConversion.computePeriodicRate (75 / 10) Monthly) ^ 12 = 1 + a.
Proof.
  cbv zeta. unfold RateConversion.computePeriodicRate.
  replace (75 / 10 / 100) with (75 / 1000) by Lra.lra.
  assert (A : (1 + 75 / 1000 / 4) ^ 4 < 3 / 2) by (simpl; Lra.lra).
  assert (B : 3 / 2
            < (1 + RateConversion.monthly_rate Quarterly (75 / 1000)) ^ 12).
  { apply Rlt_le_trans with ((1 + 75 / 1000) ^ 6);
      [simpl; Lra.lra|apply quarterly_compounds_beyond; Lra.lra]. }
  split; [reflexivity|]. split; [exact A|]. split; [exact B|].
  split; [Lra.lra|].
  apply monthly_compounds_to_annual. Lra.lra.
Qed.

End Rate.

(** * Further properties of the engine *)

(** ** Rows of every schedule *)

Lemma period_payment (r Pe : Q) (m : nat) (bal : Q) :
  let row := fst (period r Pe m bal) in
  let bal' := snd (period r Pe m bal) in
  (0 < bal' /\ 0 < Balance row /\ Payment row = Pe)
  \/ (bal' <= 0 /\ Balance row = 0
      /\ Payment row = Principal row + Interest row).
Proof.
  cbv zeta. unfold period, Qgt_bool.
  destruct (Qeq_bool r 0); cbn [fst snd Payment Principal Interest Balance];
    match goal with
    | |- context [Qle_bool ?b 0] =>
        case_test (Qle_bool b 0); cbn [negb];
        [right|left; split; [assumption|split; [|reflexivity]]]
    end;
    try (apply Qlt_le_trans with (2 := Q.le_max_r _ _); assumption);
    (split; [assumption|split; [|reflexivity]]);
    unfold Qmax, GenericMinMax.gmax;
    match goal with
    | |- context [Qcompare 0 ?b] =>
        destruct (Qcompare 0 b) eqn:C; try reflexivity;
        apply Qlt_alt in C; lra
    end.
Qed.

Lemma rows_from_payment (r Pe : Q) (ms : list nat) (bal : Q) :
  Forall (fun row => (0 < Balance row /\ Payment row = Pe)
                     \/ (Balance row = 0
                         /\ Payment row = Principal row + Interest row))
    (rows_from r Pe ms bal)
  /\ Forall (fun row => Payment row = Pe)
       (removelast (rows_from r Pe ms bal)).
Proof.
  revert bal. induction ms as [|m ms IH]; intros bal; simpl.
  - split; constructor.
  - pose proof (period_payment r Pe m bal) as F. cbv zeta in F.
    destruct (period r Pe m bal) as [row bal']. cbn [fst snd] in *.
    assert (R : (0 < Balance row /\ Payment row = Pe)
                \/ (Balance row = 0
                    /\ Payment row = Principal row + Interest row)).
    { destruct F as [(_ & F1 & F2)|(_ & F1 & F2)]; [left|right];
        split; assumption. }
    case_test (Qle_bool bal' epsilon).
    + split; [constructor; [exact R|constructor]|constructor].
    + destruct (IH bal') as [I1 I2]. split.
      * constructor; assumption.
      * pose proof (rows_from_nonempty r Pe ms bal') as NE.
        destruct (rows_from r Pe ms bal') as [|x l] eqn:E.
        -- constructor.
        -- constructor; [|exact I2].
           destruct F as [(_ & _ & F2)|(F0 & _)]; [exact F2|].
           unfold epsilon in T. lra.
Qed.

(** In every schedule, for every input: a row that leaves a positive
    balance records the periodic payment as its payment; a row that
    leaves none records balance 0 and, as its payment, the principal part
    plus the interest part it actually took.  Every row but the last
    records exactly the periodic payment. *)
Theorem payment_recorded (P r : Q) (n : nat) (Pe : Q) :
  let rows := generateSchedule P r n Pe in
  Forall (fun row => (0 < Balance row /\ Payment row = Pe)
                     \/ (Balance row = 0
                         /\ Payment row = Principal row + Interest row))
    rows
  /\ Forall (fun row => Payment row = Pe) (removelast rows).
Proof.
  cbv zeta. rewrite generateSchedule_rows. apply rows_from_payment.
Qed.

Lemma rows_from_chain (r Pe : Q) (ms : list nat) (bal : Q) (i : nat)
    (row : Row) :
  nth_error (rows_from r Pe ms bal) i = Some row ->
  0 <= Balance row
  /\ Balance row
     == opening_balance bal (rows_from r Pe ms bal) i - Principal row
  /\ Interest row == opening_balance bal (rows_from r Pe ms bal) i * r.
Proof.
  revert bal i. induction ms as [|m ms IH]; intros bal i; simpl.
  - destruct i; discriminate.
  - pose proof (period_facts r Pe m bal) as F. cbv zeta in F.
    destruct F as (F0 & F1 & F2 & F3 & _).
    destruct (period r Pe m bal) as [row0 bal']. cbn [fst snd] in *.
    destruct i as [|i]; simpl.
    + intros [= <-]. repeat split; try assumption; lra.
    + intros N.
      assert (N' : nth_error (rows_from r Pe ms bal') i = Some row).
      { destruct (Qle_bool bal' epsilon); [destruct i; discriminate|exact N]. }
      destruct (IH bal' i N') as (I0 & I1 & I2).
      assert (O : opening_balance bal' (rows_from r Pe ms bal') i
                  == match i with
                     | O => Balance row0
                     | S k =>
                         nth k (balances
                                  (if Qle_bool bal' epsilon then []
                                   else rows_from r Pe ms bal')) 0
                     end).
      { destruct i as [|k]; simpl; [lra|].
        destruct (Qle_bool bal' epsilon); [destruct k; discriminate|].
        reflexivity. }
      destruct i as [|k]; simpl in *; repeat split; try assumption;
        rewrite <- O; assumption.
Qed.

(** In every schedule, for every input, each entry is computed from the
    balance the entry before it recorded (the principal for the first):
    its interest is that balance times the rate, its balance is that
    balance less its principal part, and its balance is not negative. *)
Theorem schedule_recurrence (P r : Q) (n : nat) (Pe : Q) (i : nat)
    (row : Row) :
  let rows := generateSchedule P r n Pe in
  nth_error rows i = Some row ->
  0 <= Balance row
  /\ Balance row == opening_balance P rows i - Principal row
  /\ Interest row == opening_balance P rows i * r.
Proof.
  cbv zeta. rewrite generateSchedule_rows. apply rows_from_chain.
Qed.

(** [schedule_recurrence] on the second row of principal 1000, rate 1/8,
    two periods, payment 600. *)
Lemma schedule_recurrence_witness :
  let row := mkRow 2 (302400 # 512) (4200 # 8) (4200 # 64) 0 in
  0 <= Balance row
  /\ Balance row
     == opening_balance 1000 (generateSchedule 1000 (1 # 8) 2 600) 1
        - Principal row
  /\ Interest row
     == opening_balance 1000 (generateSchedule 1000 (1 # 8) 2 600) 1 * (1 # 8).
Proof.
  apply (schedule_recurrence 1000 (1 # 8) 2 600 1). vm_compute. reflexivity.
Defined.

(** ** The payment formula in double arithmetic *)

Lemma doubles_pow_one (n : nat) : Doubles.pow 1 n = 1%float.
Proof.
  induction n as [|n IH]; [reflexivity|].
  simpl. rewrite IH. reflexivity.
Qed.

(** In double arithmetic, a rate that is not zero but too small to change
    1.0 when added to it makes the payment formula raise
    [ZeroDivisionError], whatever the principal and the number of periods
    (at least one): the rate fails the test [r == 0], [(1 + r) ** n] is
    1.0 and the denominator is zero. *)
Theorem tiny_rate_raises (P r : float) (n : nat) :
  n <> 0%nat ->
  PrimFloat.eqb r 0 = false ->
  PrimFloat.add 1 r = 1%float ->
  Doubles.monthly_payment P r n = inl Doubles.ZeroDivisionError.
Proof.
  intros Hn Hr H1. unfold Doubles.monthly_payment.
  destruct (Nat.eqb_spec n 0); [contradiction|].
  rewrite Hr, H1, doubles_pow_one. reflexivity.
Qed.

(** [tiny_rate_raises] at the rate 1e-17 (the double nearest to it), on
    225000 over 240 periods. *)
Lemma tiny_rate_raises_witness :
  Doubles.monthly_payment 225000 0x1.70ef54646d497p-57 240
  = inl Doubles.ZeroDivisionError.
Proof.
  apply (tiny_rate_raises 225000 0x1.70ef54646d497p-57 240).
  - discriminate.
  - reflexivity.
  - reflexivity.
Defined.

(** A power beyond the largest double raises [OverflowError]. *)
Example overflow_raises :
  Doubles.monthly_payment 1000 1 1024 = inl Doubles.OverflowError.
Proof. vm_compute. reflexivity. Qed.

(** ** The payment formula: a raising input *)

Example monthly_payment_raises :
  monthly_payment 1000 (-2) 2 = None.
Proof. reflexivity. Qed.

Lemma inject_nat_nonneg (n : nat) : 0 <= inject_Z (Z.of_nat n).
Proof. rewrite <- (Zle_Qle 0). lia. Qed.

(** ** Running totals *)

Lemma for_loop_totals (r Pe : Q) (ms : list nat) (st : LoopState) :
  let st' := for_loop r Pe ms st in
  let new := rows_from r Pe ms (balance st) in
  balance st' + total_principal_paid st'
  == balance st + total_principal_paid st
  /\ total_interest_paid st'
     == total_interest_paid st + sum (map Interest new)
  /\ total_principal_paid st'
     == total_principal_paid st + sum (map Principal new).
Proof.
  cbv zeta. revert st. induction ms as [|m ms IH]; intros st; simpl.
  - rewrite sum_nil. repeat split; ring.
  - pose proof (period_facts r Pe m (balance st)) as F. cbv zeta in F.
    destruct F as (_ & _ & F2 & _).
    destruct (period r Pe m (balance st)) as [row bal']. cbn [fst snd] in *.
    destruct (Qle_bool bal' epsilon); simpl.
    + rewrite !sum_cons, !sum_nil. repeat split; lra.
    + destruct (IH (mkLoop bal' (total_interest_paid st + Interest row)
                      (total_principal_paid st + Principal row)
                      (schedule_rows st ++ [row]))) as (I1 & I2 & I3).
      simpl in I1, I2, I3. rewrite !sum_cons. repeat split; lra.
Qed.

(** For every schedule of at least one period the two running totals of
    the loop, shown as the metrics, are the last values of the cumulative
    interest and cumulative principal columns of the data frame, which
    has one row per entry of the schedule. *)
Theorem totals_are_last_cumulative (P r : Q) (n : nat) (Pe : Q) :
  (1 <= n)%nat ->
  let st := run_schedule r Pe P n in
  exists df d,
    amort_df (schedule_rows st) = Some df
    /\ List.length df = List.length (schedule_rows st)
    /\ nth_error df (pred (List.length df)) = Some d
    /\ Cumulative_Interest d == total_interest_paid st
    /\ Cumulative_Principal d == total_principal_paid st.
Proof.
  intros Hn. cbv zeta.
  pose proof (for_loop_totals r Pe (seq 1 n) (mkLoop P 0 0 [])) as T.
  cbv zeta in T. cbn [balance total_interest_paid total_principal_paid] in T.
  fold (run_schedule r Pe P n) in T.
  destruct T as (_ & T2 & T3).
  assert (R : schedule_rows (run_schedule r Pe P n)
              = rows_from r Pe (seq 1 n) P)
    by apply (generateSchedule_rows P r n Pe).
  rewrite R.
  assert (NE : rows_from r Pe (seq 1 n) P <> []).
  { apply rows_from_nonempty. destruct n; [lia|discriminate]. }
  destruct (amort_df_length _ NE) as (df & A & Len).
  assert (Pos : (1 <= List.length df)%nat).
  { rewrite Len. destruct (rows_from r Pe (seq 1 n) P);
      [congruence|simpl; lia]. }
  destruct (nth_error df (pred (List.length df))) as [d|] eqn:N.
  2:{ apply nth_error_None in N. lia. }
  exists df, d. split; [exact A|]. split; [exact Len|].
  split; [exact N|].
  destruct (amort_df_consistent _ _ A) as [M C].
  destruct (C _ _ N) as [C1 C2].
  assert (L : S (pred (List.length df)) = List.length df) by lia.
  rewrite L, firstn_all in C1, C2.
  rewrite <- (map_map entry Interest), M in C1.
  rewrite <- (map_map entry Principal), M in C2.
  split; lra.
Qed.

(** [totals_are_last_cumulative] at principal 1000, rate 1/8, two
    periods, payment 600. *)
Lemma totals_are_last_cumulative_witness :
  let st := run_schedule (1 # 8) 600 1000 2 in
  exists df d,
    amort_df (schedule_rows st) = Some df
    /\ List.length df = List.length (schedule_rows st)
    /\ nth_error df (pred (List.length df)) = Some d
    /\ Cumulative_Interest d == total_interest_paid st
    /\ Cumulative_Principal d == total_principal_paid st.
Proof.
  apply (totals_are_last_cumulative 1000 (1 # 8) 2 600). lia.
Defined.

(** ** A larger payment *)

Lemma period_monotone (r Pe1 Pe2 : Q) (m : nat) (bal1 bal2 : Q) :
  0 <= r -> bal1 <= bal2 -> Pe2 <= Pe1 ->
  snd (period r Pe1 m bal1) <= snd (period r Pe2 m bal2).
Proof.
  intros Hr Hb Hp.
  pose proof (period_facts r Pe1 m bal1) as F1. cbv zeta in F1.
  pose proof (period_facts r Pe2 m bal2) as F2. cbv zeta in F2.
  destruct F1 as (_ & _ & _ & _ & _ & _ & _ & E1).
  destruct F2 as (_ & _ & _ & _ & _ & _ & _ & E2).
  rewrite E1, E2. apply Q.max_le_compat_l.
  assert (bal1 * (1 + r) <= bal2 * (1 + r))
    by (apply Qmult_le_compat_r; lra).
  lra.
Qed.

Lemma rows_from_shorter (r Pe1 Pe2 : Q) (ms : list nat) (bal1 bal2 : Q) :
  0 <= r -> bal1 <= bal2 -> Pe2 <= Pe1 ->
  (List.length (rows_from r Pe1 ms bal1)
   <= List.length (rows_from r Pe2 ms bal2))%nat.
Proof.
  intros Hr. revert bal1 bal2.
  induction ms as [|m ms IH]; intros bal1 bal2 Hb Hp; simpl; [lia|].
  pose proof (period_monotone r Pe1 Pe2 m bal1 bal2 Hr Hb Hp) as M.
  destruct (period r Pe1 m bal1) as [row1 b1].
  destruct (period r Pe2 m bal2) as [row2 b2]. cbn [snd] in M.
  case_test (Qle_bool b1 epsilon); simpl; [lia|].
  case_test (Qle_bool b2 epsilon); [lra|].
  specialize (IH b1 b2 M Hp). lia.
Qed.

Lemma rows_from_interest_nonneg (r Pe : Q) (ms : list nat) (bal : Q) :
  0 <= r -> 0 <= bal -> 0 <= sum (map Interest (rows_from r Pe ms bal)).
Proof.
  intros Hr. revert bal.
  induction ms as [|m ms IH]; intros bal Hb; simpl.
  - rewrite sum_nil. lra.
  - pose proof (period_facts r Pe m bal) as F. cbv zeta in F.
    destruct F as (F0 & _ & _ & F3 & _).
    destruct (period r Pe m bal) as [row bal']. cbn [fst snd] in *.
    assert (0 <= bal * r) by (apply Qmult_le_0_compat; assumption).
    destruct (Qle_bool bal' epsilon); simpl; rewrite sum_cons.
    + rewrite sum_nil. lra.
    + specialize (IH bal' F0). lra.
Qed.

Lemma rows_from_less_interest (r Pe1 Pe2 : Q) (ms : list nat)
    (bal1 bal2 : Q) :
  0 <= r -> 0 <= bal1 -> bal1 <= bal2 -> Pe2 <= Pe1 ->
  sum (map Interest (rows_from r Pe1 ms bal1))
  <= sum (map Interest (rows_from r Pe2 ms bal2)).
Proof.
  intros Hr. revert bal1 bal2.
  induction ms as [|m ms IH]; intros bal1 bal2 H0 Hb Hp; simpl.
  - apply Qle_refl.
  - pose proof (period_monotone r Pe1 Pe2 m bal1 bal2 Hr Hb Hp) as M.
    pose proof (period_facts r Pe1 m bal1) as F1. cbv zeta in F1.
    pose proof (period_facts r Pe2 m bal2) as F2. cbv zeta in F2.
    destruct F1 as (P1 & _ & _ & I1 & _).
    destruct F2 as (P2 & _ & _ & I2 & _).
    destruct (period r Pe1 m bal1) as [row1 b1].
    destruct (period r Pe2 m bal2) as [row2 b2]. cbn [fst snd] in *.
    assert (bal1 * r <= bal2 * r) by (apply Qmult_le_compat_r; assumption).
    case_test (Qle_bool b1 epsilon); simpl; rewrite !sum_cons.
    + rewrite sum_nil.
      assert (0 <= sum (map Interest
                          (if Qle_bool b2 epsilon then []
                           else rows_from r Pe2 ms b2))).
      { destruct (Qle_bool b2 epsilon); simpl.
        - rewrite sum_nil. lra.
        - apply rows_from_interest_nonneg; assumption. }
      lra.
    + case_test (Qle_bool b2 epsilon); [lra|].
      specialize (IH b1 b2 P1 M Hp). lra.
Qed.

(** With a principal and a rate that are not negative, raising the
    periodic payment never lengthens the schedule and never increases the
    total interest paid. *)
Theorem larger_payment_helps (P r : Q) (n : nat) (Pe Pe' : Q) :
  0 <= P -> 0 <= r -> Pe <= Pe' ->
  (List.length (generateSchedule P r n Pe')
   <= List.length (generateSchedule P r n Pe))%nat
  /\ sum (map Interest (generateSchedule P r n Pe'))
     <= sum (map Interest (generateSchedule P r n Pe)).
Proof.
  intros HP Hr Hp. rewrite !generateSchedule_rows. split.
  - apply rows_from_shorter; try assumption. apply Qle_refl.
  - apply rows_from_less_interest; try assumption. apply Qle_refl.
Qed.

(** [larger_payment_helps] at principal 1000, rate 1/8, three periods,
    payments 450 and 600. *)
Lemma larger_payment_helps_witness :
  (List.length (generateSchedule 1000 (1 # 8) 3 600)
   <= List.length (generateSchedule 1000 (1 # 8) 3 450))%nat
  /\ sum (map Interest (generateSchedule 1000 (1 # 8) 3 600))
     <= sum (map Interest (generateSchedule 1000 (1 # 8) 3 450)).
Proof.
  apply (larger_payment_helps 1000 (1 # 8) 3 450 600); discriminate.
Defined.

Example larger_payment_lengths :
  List.length (generateSchedule 1000 (1 # 8) 3 600) = 2%nat
  /\ List.length (generateSchedule 1000 (1 # 8) 3 450) = 3%nat.
Proof. vm_compute. split; reflexivity. Qed.

(** ** The page: exceptions *)

Lemma monthly_payment_defined (P r : Q) (n : nat) :
  0 <= r -> exists p, monthly_payment P r n = Some p.
Proof.
  intros Hr. unfold monthly_payment.
  destruct (Nat.eqb_spec n 0) as [E|E]; [now eexists|].
  case_test (Qeq_bool r 0); [now eexists|].
  assert (Hpos : 0 < r).
  { apply Qnot_le_lt. intros C. apply T. lra. }
  assert (G : 1 < growth r n) by (apply growth_gt_1; [assumption|lia]).
  unfold growth in G.
  case_test (Qeq_bool ((1 + r) ^ Z.of_nat n - 1) 0); [lra|now eexists].
Qed.

Section PageRuns.

Variable fpow : Q -> Q -> Q.
Variable pie_raises : Q -> Q -> bool.

(** The calculation ends in [KeyError] exactly when the duration is zero
    years: the loop then appends no row and the frame has no [Interest]
    column.  With a positive effective principal the page then shows the
    summary and nothing else. *)
Theorem key_error_iff_no_period (i : Inputs) (ep : Q) :
  (snd (calculations fpow i ep) = Halted (Raised KeyError)
   <-> duration_years i = 0%nat)
  /\ (duration_years i = 0%nat ->
      0 < Qmax 0 (principal i - deposit i) ->
      app fpow pie_raises i
      = ([ev_summary (principal i) (deposit i)
            (Qmax 0 (principal i - deposit i)) (interest_rate i)
            (duration_years i) (extra_payment i)],
         Halted (Raised KeyError))).
Proof.
  assert (Z : duration_years i = 0%nat ->
              calculations fpow i ep = ([], Halted (Raised KeyError))).
  { intros D. rewrite calculations_cases. cbv zeta. rewrite D. reflexivity. }
  split; [split|].
  - intros H. rewrite calculations_cases in H. cbv zeta in H.
    destruct (duration_years i) as [|y]; [reflexivity|exfalso].
    destruct (monthly_payment _ _ _) as [base|]; [|discriminate].
    set (r := monthly_rate fpow (compounding i) (interest_rate i / 100)) in *.
    change (schedule_rows
              (run_schedule r (base + extra_payment i) ep (S y * 12)))
      with (generateSchedule ep r (S y * 12) (base + extra_payment i)) in H.
    rewrite generateSchedule_rows in H.
    pose proof (rows_from_nonempty r (base + extra_payment i)
                  (seq 1 (S y * 12)) ep) as NE.
    destruct (rows_from _ _ _ _) as [|x l].
    + apply NE; [discriminate|reflexivity].
    + discriminate.
  - intros D. now rewrite (Z D).
  - intros D Hep. unfold app.
    case_test (Qle_bool (Qmax 0 (principal i - deposit i)) 0); [lra|].
    rewrite calculations_cases. cbv zeta. rewrite D. reflexivity.
Qed.

Hypothesis fpow_ge_1 : forall x y, 1 <= x -> 0 <= y -> 1 <= fpow x y.
Hypothesis fpow_nonneg : forall x y, 0 <= x -> 0 <= fpow x y.

Lemma monthly_rate_nonneg (c : Compounding) (a : Q) :
  0 <= a -> 0 <= monthly_rate fpow c a.
Proof.
  intros Ha.
  assert (M : 1 <= fpow (1 + a) (1 / 12))
    by (apply fpow_ge_1; [lra|discriminate]).
  assert (E : 0 <= fpow (1 / 4) (1 / 3))
    by (apply fpow_nonneg; discriminate).
  assert (K : 1 <= fpow (1 + a) (fpow (1 / 4) (1 / 3)))
    by (apply fpow_ge_1; lra).
  destruct c; simpl; lra.
Qed.

Lemma quote_defined (ep rate : Q) (n : nat) :
  0 <= rate ->
  exists p,
    monthly_payment ep (fpow (1 + rate / 100) (1 / 12) - 1) n = Some p.
Proof.
  intros Hr. apply monthly_payment_defined.
  assert (0 <= rate / 100) by (apply Qle_shift_div_l; lra).
  assert (1 <= fpow (1 + rate / 100) (1 / 12))
    by (apply fpow_ge_1; [lra|discriminate]).
  lra.
Qed.

Lemma sensitivity_runs (i : Inputs) (ep : Q) (n : nat) :
  0 <= interest_rate i ->
  snd (sensitivity fpow i ep n) = Ok tt
  /\ List.length (filter is_rate_quote (fst (sensitivity fpow i ep n)))
     = 3%nat.
Proof.
  intros Hr. unfold sensitivity.
  destruct (quote_defined ep (Qmax 0 (interest_rate i - 2)) n) as [p1 E1];
    [apply Q.le_max_l|].
  destruct (quote_defined ep (interest_rate i) n) as [p2 E2]; [assumption|].
  destruct (quote_defined ep (interest_rate i + 2) n) as [p3 E3]; [lra|].
  cbn [for_each]. rewrite E1, E2, E3. split; reflexivity.
Qed.

(** When [**] behaves like a power (at least 1 on a base at least 1 with
    an exponent that is not negative, never negative on a base that is
    not negative), the deposit is below the loan amount, the rate is not
    negative and the duration is at least one year, the page runs to its
    last line: no exception, no stop, and all three sensitivity quotes are
    shown. *)
Theorem page_runs_to_the_end (i : Inputs) :
  deposit i < principal i -> 0 <= interest_rate i ->
  (1 <= duration_years i)%nat ->
  snd (app fpow pie_raises i) = Ok tt
  /\ List.length (filter is_rate_quote (fst (app fpow pie_raises i)))
     = 3%nat.
Proof.
  intros Hd Hr Hy. unfold app.
  assert (Hep : 0 < Qmax 0 (principal i - deposit i)).
  { apply Qlt_le_trans with (principal i - deposit i);
      [lra|apply Q.le_max_r]. }
  set (ep := Qmax 0 (principal i - deposit i)) in *.
  case_test (Qle_bool ep 0); [lra|].
  rewrite calculations_cases. cbv zeta.
  set (r := monthly_rate fpow (compounding i) (interest_rate i / 100)).
  set (n := (duration_years i * 12)%nat).
  assert (Hrate : 0 <= r).
  { apply monthly_rate_nonneg. apply Qle_shift_div_l; lra. }
  destruct (monthly_payment_defined ep r n Hrate) as [base E]. rewrite E.
  change (schedule_rows (run_schedule r (base + extra_payment i) ep n))
    with (generateSchedule ep r n (base + extra_payment i)).
  destruct (amort_df_length (generateSchedule ep r n (base + extra_payment i)))
    as (df & A & _).
  { rewrite generateSchedule_rows. apply rows_from_nonempty.
    subst n. destruct (duration_years i); [lia|discriminate]. }
  rewrite A.
  destruct (sensitivity_runs i ep n Hr) as [S1 S2].
  rewrite !bind_result, !bind_trace. cbn [emit ret fst snd c_total_months].
  rewrite !bind_result, !bind_trace. cbn [emit ret fst snd c_total_months].
  rewrite !results_result. split; [exact S1|].
  rewrite !filter_app, !length_app, S2.
  assert (R : forall c, List.length (filter is_rate_quote
                                       (fst (results pie_raises i c)))
                        = 0%nat).
  { intros c. unfold results, when. split_tests; reflexivity. }
  rewrite R. reflexivity.
Qed.

End PageRuns.

(** [page_runs_to_the_end] with the identity on the base for [**], on one
    year at rate 0 on 1200. *)
Lemma page_runs_to_the_end_witness :
  let page := app (fun x _ => x) (fun _ _ => false)
                (mkInputs 1200 0 0 Quarterly 1 0 true true true false 2 true) in
  snd page = Ok tt
  /\ List.length (filter is_rate_quote (fst page)) = 3%nat.
Proof.
  apply (page_runs_to_the_end (fun x _ => x) (fun _ _ => false)
           (fun x _ H _ => H) (fun x _ H => H)
           (mkInputs 1200 0 0 Quarterly 1 0 true true true false 2 true)).
  - reflexivity.
  - discriminate.
  - simpl. lia.
Defined.

(** ** The sensitivity comparison *)

(** The comparison always converts its rates with the monthly formula.
    So when the compounding selection is Monthly or Annually and the quote
    before it did not fail, the quote shown for the selected rate is the
    base monthly payment of the page; the extra payment plays no part. *)
Theorem sensitivity_quotes_base_payment (fpow : Q -> Q -> Q) (i : Inputs)
    (ep : Q) (n : nat) (p1 base : Q) :
  compounding i <> Quarterly ->
  monthly_payment ep
    (fpow (1 + Qmax 0 (interest_rate i - 2) / 100) (1 / 12) - 1) n
  = Some p1 ->
  monthly_payment ep
    (monthly_rate fpow (compounding i) (interest_rate i / 100)) n
  = Some base ->
  In (ev_rate_metric (interest_rate i) base)
     (fst (sensitivity fpow i ep n)).
Proof.
  intros Hc E1 E.
  assert (E2 : monthly_payment ep
                 (fpow (1 + interest_rate i / 100) (1 / 12) - 1) n
               = Some base).
  { destruct (compounding i); [exact E|congruence|exact E]. }
  unfold sensitivity. cbn [for_each]. rewrite E1, E2.
  destruct (monthly_payment ep
              (fpow (1 + (interest_rate i + 2) / 100) (1 / 12) - 1) n);
    simpl; auto.
Qed.

(** [sensitivity_quotes_base_payment] on one year at rate 0 on 1200,
    Monthly: the quote for rate 0 is 1200/12. *)
Lemma sensitivity_quotes_base_payment_witness :
  In (ev_rate_metric 0 (1200 / inject_Z 12))
     (fst (sensitivity linear_pow
             (mkInputs 1200 0 0 Monthly 1 0 true true true false 2 true)
             1200 12)).
Proof.
  apply (sensitivity_quotes_base_payment linear_pow
           (mkInputs 1200 0 0 Monthly 1 0 true true true false 2 true)
           1200 12 (1200 / inject_Z 12) (1200 / inject_Z 12)).
  - discriminate.
  - reflexivity.
  - reflexivity.
Defined.

(** ** The inflation column *)

Lemma zip3_no_adjustment (rows : list Row) (ci cp : list Q) :
  Forall (fun d => Balance_inflation_adj d = None) (zip3 rows ci cp).
Proof.
  revert ci cp. induction rows as [|row rows IH]; intros ci cp; simpl.
  - constructor.
  - destruct ci; [constructor|]. destruct cp; [constructor|].
    constructor; [reflexivity|apply IH].
Qed.

Lemma linear_pow_ge_1 (x y : Q) : 1 <= x -> 0 <= y -> 1 <= linear_pow x y.
Proof.
  intros Hx Hy. unfold linear_pow.
  assert (0 <= (x - 1) * y) by (apply Qmult_le_0_compat; lra). lra.
Qed.

(** When [**] is at least 1 on a base at least 1 with an exponent that
    is not negative, and the inflation rate is not negative: adding the
    inflation column leaves the schedule entries as they are; a row gets
    an adjusted balance exactly when the adjustment is switched on with a
    positive rate, and that adjusted balance is between 0 and the
    balance of the row. *)
Theorem inflation_adjusted_balance (fpow : Q -> Q -> Q) (i : Inputs)
    (P r : Q) (n : nat) (Pe : Q) (df : list DfRow) :
  (forall x y, 1 <= x -> 0 <= y -> 1 <= fpow x y) ->
  0 <= inflation_rate i ->
  amort_df (generateSchedule P r n Pe) = Some df ->
  map entry (inflation_column fpow i df) = generateSchedule P r n Pe
  /\ Forall
       (fun d =>
          match Balance_inflation_adj d with
          | Some b =>
              inflation_adj i && Qgt_bool (inflation_rate i) 0 = true
              /\ 0 <= b /\ b <= Balance (entry d)
          | None => inflation_adj i && Qgt_bool (inflation_rate i) 0 = false
          end)
       (inflation_column fpow i df).
Proof.
  intros Hpow Hrate A.
  destruct (amort_df_consistent _ _ A) as [M _].
  assert (NN : Forall (fun d => 0 <= Balance (entry d)) df).
  { pose proof (rows_from_nonneg r Pe (seq 1 n) P) as B.
    rewrite <- generateSchedule_rows, <- M in B.
    rewrite Forall_forall in B. apply Forall_forall. intros d Hin.
    apply B. unfold balances. rewrite map_map.
    apply in_map_iff. exists d. split; [reflexivity|exact Hin]. }
  assert (NA : Forall (fun d => Balance_inflation_adj d = None) df).
  { unfold amort_df in A.
    destruct (generateSchedule P r n Pe) as [|row rows]; [discriminate|].
    injection A as <-.
    apply (zip3_no_adjustment (row :: rows)
             (cumsum (map Interest (row :: rows)))
             (cumsum (map Principal (row :: rows)))). }
  unfold inflation_column.
  destruct (inflation_adj i && Qgt_bool (inflation_rate i) 0) eqn:C.
  - split.
    + rewrite map_map. simpl. exact M.
    + apply Forall_map. eapply Forall_impl; [|exact NN].
      intros d Hd. cbv beta in Hd. cbn [Balance_inflation_adj entry].
      set (f := fpow (1 + inflation_rate i / 100)
                  (inject_Z (Z.of_nat (Month (entry d))) / 12)).
      assert (F : 1 <= f).
      { apply Hpow.
        - assert (0 <= inflation_rate i / 100)
            by (apply Qle_shift_div_l; lra).
          lra.
        - apply Qle_shift_div_l; [reflexivity|].
          pose proof (inject_nat_nonneg (Month (entry d))). lra. }
      split; [reflexivity|]. split.
      * apply Qle_shift_div_l; lra.
      * apply Qle_shift_div_r; [lra|].
        assert (Balance (entry d) * 1 <= Balance (entry d) * f).
        { rewrite !(Qmult_comm (Balance (entry d))).
          apply Qmult_le_compat_r; assumption. }
        lra.
  - split; [exact M|].
    eapply Forall_impl; [|exact NA].
    intros d Hd. rewrite Hd. reflexivity.
Qed.

(** [inflation_adjusted_balance] on principal 1000, rate 1/8, two
    periods, payment 600, with inflation at 2 percent. *)
Lemma inflation_adjusted_balance_witness :
  let i := mkInputs 1000 0 12 Monthly 1 0 true true true true 2 true in
  exists df,
    amort_df (generateSchedule 1000 (1 # 8) 2 600) = Some df
    /\ map entry (inflation_column linear_pow i df)
       = generateSchedule 1000 (1 # 8) 2 600
    /\ Forall
         (fun d =>
            match Balance_inflation_adj d with
            | Some b =>
                inflation_adj i && Qgt_bool (inflation_rate i) 0 = true
                /\ 0 <= b /\ b <= Balance (entry d)
            | None =>
                inflation_adj i && Qgt_bool (inflation_rate i) 0 = false
            end)
         (inflation_column linear_pow i df).
Proof.
  cbv zeta.
  destruct (amort_df (generateSchedule 1000 (1 # 8) 2 600)) as [df|] eqn:A;
    [|discriminate].
  exists df. split; [reflexivity|].
  apply (inflation_adjusted_balance linear_pow
           (mkInputs 1000 0 12 Monthly 1 0 true true true true 2 true)
           1000 (1 # 8) 2 600 df linear_pow_ge_1).
  - discriminate.
  - exact A.
Defined.

(** ** Rate conversion: the monthly formula *)

Section RateFacts.

Local Open Scope R_scope.

(** Over the reals, for an annual rate that is not negative: the Monthly
    and Annually branches return a rate that is not negative and that
    compounds over twelve months to exactly the annual rate; the Quarterly
    branch never returns less than they do. *)
Theorem monthly_formula_is_equivalent (a : R) :
  0 <= a ->
  (forall c, c <> Quarterly ->
     0 <= RateConversion.monthly_rate c a
     /\ (1 + RateConversion.monthly_rate c a) ^ 12 = 1 + a)
  /\ RateConversion.monthly_rate Monthly a
     <= RateConversion.monthly_rate Quarterly a.
Proof.
  intros Ha.
  assert (N : 1 <= Rpower (1 + a) (1 / 12)).
  { apply Rle_trans with (Rpower (1 + a) 0).
    - rewrite Rpower_O by Lra.lra. Lra.lra.
    - apply Rle_Rpower; Lra.lra. }
  split.
  - intros c Hc.
    assert (E : RateConversion.monthly_rate c a
                = RateConversion.monthly_rate Monthly a)
      by (destruct c; [reflexivity|congruence|reflexivity]).
    rewrite E. split.
    + unfold RateConversion.monthly_rate. Lra.lra.
    + apply monthly_compounds_to_annual. exact Ha.
  - unfold RateConversion.monthly_rate.
    assert (Rpower (1 + a) (1 / 12)
            <= Rpower (1 + a) (Rpower (1 / 4) (1 / 3))).
    { apply Rle_Rpower; [Lra.lra|].
      pose proof cube_root_of_quarter. Lra.lra. }
    Lra.lra.
Qed.

(** [monthly_formula_is_equivalent] at the default rate of 7.5 percent. *)
Lemma monthly_formula_is_equivalent_witness :
  (forall c, c <> Quarterly ->
     0 <= RateConversion.monthly_rate c (75 / 1000)
     /\ (1 + RateConversion.monthly_rate c (75 / 1000)) ^ 12 = 1 + 75 / 1000)
  /\ RateConversion.monthly_rate Monthly (75 / 1000)
     <= RateConversion.monthly_rate Quarterly (75 / 1000).
Proof.
  apply (monthly_formula_is_equivalent (75 / 1000)). Lra.lra.
Defined.

End RateFacts.
